(** * Gesture-controlled smart glasses: the controller's core pipeline

    A shallow embedding of [python codes/new_gesture_control.py]
    (class [GestureController]): the MJPEG demultiplexer and the
    cool-down gate of [process_esp32_stream], the pose classifier
    [detect_gesture], the display channel [send_to_esp32_display] with
    [update_esp32_settings], and the gesture registry
    ([load_gesture_config], [update_gesture_mapping]).

    Conventions.
    - Python [bytes] are [list byte]; [bytes.find] returns a [Z] with
      [-1] for "not found", as in Python.
    - Python floats (timestamps of [time.time()], cool-down, landmark
      coordinates) are idealised as exact rationals [Q]; only their
      order and differences are used by the code.
    - Python dictionaries are [gmap string _]; dictionary objects that can
      be aliased live in an explicit heap.
    - A call that can raise returns a [result]: [Ok] or [Raise]. *)

From Stdlib Require Import QArith Lqa ZArith List Bool Sorted.
From Stdlib.Strings Require Import Byte.
From stdpp Require Import gmap strings list fin_maps.
Import ListNotations.

Local Open Scope Z_scope.
Set Warnings "-register-all".

(** ** Exceptions

    A call either returns a value or raises; [try]/[except Exception]
    is a match on the result. *)

Inductive exn : Type :=
| IndexError
| TypeError
| OSError
| JSONDecodeError
| CvError.

Inductive result (A : Type) : Type :=
| Ok (a : A)
| Raise (e : exn).

Arguments Ok {A} a.
Arguments Raise {A} e.

#[global] Instance result_ret : MRet result := fun _ a => Ok a.

#[global] Instance result_bind : MBind result := fun _ _ k m =>
  match m with
  | Ok a => k a
  | Raise e => Raise e
  end.

(** [a < b] on the rationals, as a boolean. *)
Definition Qltb (a b : Q) : bool := negb (Qle_bool b a).

(** ** Python bytes: [find] and slices *)

Module Bytes.

Definition byte_eqb (x y : byte) : bool := Byte.eqb x y.

(** [is_prefix sub l]: [l] starts with [sub] ([l.startswith(sub)]). *)
Fixpoint is_prefix (sub l : list byte) : bool :=
  match sub, l with
  | [], _ => true
  | _ :: _, [] => false
  | x :: sub', y :: l' => byte_eqb x y && is_prefix sub' l'
  end.

(** Lowest index at which [sub] occurs in [l], counted from [i]. *)
Fixpoint find_from (sub l : list byte) (i : nat) : option nat :=
  if is_prefix sub l then Some i
  else match l with
       | [] => None
       | _ :: l' => find_from sub l' (S i)
       end.

(** [l.find(sub)]: the lowest index of an occurrence, [-1] if none. *)
Definition find (l sub : list byte) : Z :=
  match find_from sub l 0 with
  | Some i => Z.of_nat i
  | None => -1
  end.

(** [l[lo:hi]] for non-negative [lo], [hi] (the only case the code
    reaches: both come from a successful [find]). An upper bound below
    the lower one gives the empty string. *)
Definition slice (l : list byte) (lo hi : Z) : list byte :=
  firstn (Z.to_nat hi - Z.to_nat lo)%nat (skipn (Z.to_nat lo) l).

(** [l[lo:]] for non-negative [lo]. *)
Definition slice_from (l : list byte) (lo : Z) : list byte :=
  skipn (Z.to_nat lo) l.

End Bytes.

(** ** FrameSource: the demultiplexer of [process_esp32_stream] *)

Module Demux.

(** [b'\xff\xd8'] and [b'\xff\xd9']. *)
Definition SOI : list byte := [xff; xd8].
Definition EOI : list byte := [xff; xd9].

(** Lines 637-642: append the chunk, look for the first start marker and
    the first end marker, and when both exist cut one image out.
    Returns the new [bytes_data] and the extracted [jpg], if any. *)
Definition demux_step (bytes_data chunk : list byte)
  : list byte * option (list byte) :=
  let bytes_data := bytes_data ++ chunk in
  let a := Bytes.find bytes_data SOI in
  let b := Bytes.find bytes_data EOI in
  if negb (a =? -1) && negb (b =? -1) then
    let jpg := Bytes.slice bytes_data a (b + 2) in
    (Bytes.slice_from bytes_data (b + 2), Some jpg)
  else (bytes_data, None).

(** The demultiplexer alone, iterated over the chunks of a stream: the
    images cut out, in order, and the bytes left in the accumulator. *)
Fixpoint demux_run (bytes_data : list byte) (chunks : list (list byte))
  : list (list byte) * list byte :=
  match chunks with
  | [] => ([], bytes_data)
  | chunk :: rest =>
      let '(bytes_data', jpg) := demux_step bytes_data chunk in
      let '(frames, final) := demux_run bytes_data' rest in
      (match jpg with Some j => j :: frames | None => frames end, final)
  end.

(** An encoded image as the demultiplexer sees it: it opens with the
    start marker and its first end marker is its last two bytes. *)
Definition well_delimited (img : list byte) : bool :=
  (Bytes.find img SOI =? 0)
  && (Bytes.find img EOI =? Z.of_nat (length img) - 2).

End Demux.

(** ** GestureClassifier: [detect_gesture] *)

Module Classifier.

(** A hand landmark: only its normalised [x] and [y] are read. *)
Record landmark : Type := { x : Q; y : Q }.

(** [landmarks[i]], which raises [IndexError] out of range. *)
Definition getitem (landmarks : list landmark) (i : nat) : result landmark :=
  match landmarks !! i with
  | Some p => Ok p
  | None => Raise IndexError
  end.

(** [sum([...])] over booleans. *)
Definition count_true (bs : list bool) : Z :=
  fold_right (fun (b : bool) n => (if b then 1 else 0) + n) 0 bs.

(** [np.sqrt(d2) < t] for a threshold [t >= 0]: on exact numbers the
    square root of a sum of squares is below [t] exactly when the sum is
    below [t * t]. *)
Definition sqrt_lt (d2 t : Q) : bool := Qltb d2 (t * t).

(** The five finger flags of lines 678-682, in the order thumb, index,
    middle, ring, pinky, with the squared thumb-index distance of
    line 694. *)
Record fingers : Type := {
  thumb_up : bool;
  index_up : bool;
  middle_up : bool;
  ring_up : bool;
  pinky_up : bool;
  thumb_index_dist2 : Q
}.

(** Lines 676-682 and the radicand of line 694. *)
Definition read_fingers (landmarks : list landmark) : result fingers :=
  thumb_tip ← getitem landmarks 4;
  index_tip ← getitem landmarks 8;
  middle_tip ← getitem landmarks 12;
  ring_tip ← getitem landmarks 16;
  pinky_tip ← getitem landmarks 20;
  index_base ← getitem landmarks 5;
  middle_base ← getitem landmarks 9;
  ring_base ← getitem landmarks 13;
  pinky_base ← getitem landmarks 17;
  thumb_ip ← getitem landmarks 3;
  mret {| thumb_up := Qltb (y thumb_tip) (y thumb_ip);
          index_up := Qltb (y index_tip) (y index_base);
          middle_up := Qltb (y middle_tip) (y middle_base);
          ring_up := Qltb (y ring_tip) (y ring_base);
          pinky_up := Qltb (y pinky_tip) (y pinky_base);
          thumb_index_dist2 :=
            ((x thumb_tip - x index_tip) * (x thumb_tip - x index_tip)
             + (y thumb_tip - y index_tip) * (y thumb_tip - y index_tip))%Q |}.

(** Lines 683-699: the cascade of tests, first match wins. *)
Definition decide_gesture (f : fingers) : string :=
  let fingers_up :=
    count_true [index_up f; middle_up f; ring_up f; pinky_up f] in
  if thumb_up f && negb (index_up f) && negb (middle_up f)
     && negb (ring_up f) && negb (pinky_up f)
  then "thumbs_up"
  else if index_up f && middle_up f && negb (ring_up f) && negb (pinky_up f)
  then "peace"
  else if (fingers_up =? 0) && negb (thumb_up f)
  then "fist"
  else if (fingers_up =? 4) && thumb_up f
  then "open_palm"
  else if index_up f && negb (middle_up f) && negb (ring_up f)
          && negb (pinky_up f)
  then "pointing"
  else if sqrt_lt (thumb_index_dist2 f) 0.05 && middle_up f && ring_up f
  then "ok_sign"
  else if sqrt_lt (thumb_index_dist2 f) 0.08 && negb (middle_up f)
          && negb (ring_up f)
  then "pinch"
  else "None".

Definition detect_gesture (landmarks : list landmark) : result string :=
  f ← read_fingers landmarks;
  mret (decide_gesture f).

(** The test guarding each [return] of the cascade, by label. *)
Definition condition (g : string) (f : fingers) : bool :=
  let fingers_up :=
    count_true [index_up f; middle_up f; ring_up f; pinky_up f] in
  if String.eqb g "thumbs_up" then
    thumb_up f && negb (index_up f) && negb (middle_up f)
    && negb (ring_up f) && negb (pinky_up f)
  else if String.eqb g "peace" then
    index_up f && middle_up f && negb (ring_up f) && negb (pinky_up f)
  else if String.eqb g "fist" then (fingers_up =? 0) && negb (thumb_up f)
  else if String.eqb g "open_palm" then (fingers_up =? 4) && thumb_up f
  else if String.eqb g "pointing" then
    index_up f && negb (middle_up f) && negb (ring_up f) && negb (pinky_up f)
  else if String.eqb g "ok_sign" then
    sqrt_lt (thumb_index_dist2 f) 0.05 && middle_up f && ring_up f
  else if String.eqb g "pinch" then
    sqrt_lt (thumb_index_dist2 f) 0.08 && negb (middle_up f)
    && negb (ring_up f)
  else false.

(** The order in which the cascade tries the labels. *)
Definition priority : list string :=
  ["thumbs_up"; "peace"; "fist"; "open_palm"; "pointing"; "ok_sign"; "pinch"].

(** The labels whose test a pose passes. *)
Definition matching (f : fingers) : list string :=
  List.filter (fun g => condition g f) priority.

End Classifier.

(** ** GestureDispatcher: the cool-down gate of [process_esp32_stream] *)

Module Dispatcher.

(** The fields of the controller the gate reads and writes. *)
Record gesture_state : Type := {
  last_gesture_time : Q;
  gesture_cooldown : Q;
  current_gesture : string
}.

(** [__init__], lines 108-110. *)
Definition initial : gesture_state :=
  {| last_gesture_time := 0; gesture_cooldown := 1; current_gesture := "None" |}.

(** The test of line 654. *)
Definition fires (st : gesture_state) (gesture : string) (now : Q) : bool :=
  negb (String.eqb gesture "None")
  && Qltb (gesture_cooldown st) (now - last_gesture_time st).

(** Lines 654-657: the new state and the gesture handed to a fresh
    action thread, if any. *)
Definition on_gesture (st : gesture_state) (gesture : string) (now : Q)
  : gesture_state * option string :=
  if fires st gesture now then
    ({| last_gesture_time := now;
        gesture_cooldown := gesture_cooldown st;
        current_gesture := gesture |}, Some gesture)
  else (st, None).

(** The gate over the classified frames of a stream, each with the
    reading of [time.time()] taken for it: the firings, with their times. *)
Fixpoint run (st : gesture_state) (frames : list (string * Q))
  : list (string * Q) :=
  match frames with
  | [] => []
  | (gesture, now) :: rest =>
      let '(st', fired) := on_gesture st gesture now in
      match fired with
      | Some g => (g, now) :: run st' rest
      | None => run st' rest
      end
  end.

End Dispatcher.

(** ** PipelineController: [process_esp32_stream], [stop_stream] and
    [update_display] as interleaved threads *)

Module Stream.

(** What one iteration of the [for] loop receives from outside: the chunk
    of [iter_content], whether [cv2.imdecode] yields an image for the
    bytes cut out, the hands MediaPipe reports for it, and the reading of
    [time.time()]. *)
Record chunk_io : Type := {
  chunk : list byte;
  decodable : bool;
  multi_hand_landmarks : list (list Classifier.landmark);
  now : Q
}.

(** The fields of [self] shared between the threads. [frame_queue] is
    [queue.Queue(maxsize=1)]; a frame stands for the bytes it was decoded
    from. *)
Record shared : Type := {
  is_running : bool;
  gestures : Dispatcher.gesture_state;
  frame_queue : option (list byte)
}.

Inductive event : Type :=
| EvFrame (jpg : list byte)
| EvDispatch (gesture : string)
| EvStreamError (e : exn)
| EvStopReturned.

(** Lines 647-652: the gesture of the first reported hand. *)
Definition first_hand_gesture (hands : list (list Classifier.landmark))
  : result string :=
  match hands with
  | [] => mret "None"
  | hand_landmarks :: _ => Classifier.detect_gesture hand_landmarks
  end.

(** Lines 637-659, one pass of the loop body after the [is_running]
    test. [cv2.resize] raises on the [None] that [imdecode] returns for
    undecodable bytes. *)
Definition loop_body (sh : shared) (bytes_data : list byte) (io : chunk_io)
  : result (shared * list byte * list event) :=
  let '(bytes_data, jpg) := Demux.demux_step bytes_data (chunk io) in
  match jpg with
  | None => mret (sh, bytes_data, [])
  | Some jpg =>
      if negb (decodable io) then Raise CvError
      else
        gesture ← first_hand_gesture (multi_hand_landmarks io);
        let '(gs, fired) := Dispatcher.on_gesture (gestures sh) gesture (now io) in
        let queue :=
          match frame_queue sh with
          | None => Some jpg
          | Some waiting => Some waiting
          end in
        mret ({| is_running := is_running sh;
                 gestures := gs;
                 frame_queue := queue |},
              bytes_data,
              EvFrame jpg
              :: match fired with
                 | Some g => [EvDispatch g]
                 | None => []
                 end)
  end.

(** Where the ingestion thread stands: about to take the next chunk and
    test [is_running] (line 634-635), past the test with the chunk in
    hand, or out of the loop. *)
Inductive pc : Type :=
| LoopHead
| Body (io : chunk_io)
| Finished.

Record ingest : Type := {
  at_pc : pc;
  bytes_data : list byte;
  stream : list chunk_io
}.

Record config : Type := {
  self : shared;
  thread : ingest
}.

(** One step of the thread running [process_esp32_stream]. *)
Definition ingest_step (c : config) : config * list event :=
  let t := thread c in
  match at_pc t with
  | Finished => (c, [])
  | LoopHead =>
      match stream t with
      | [] => ({| self := self c;
                  thread := {| at_pc := Finished;
                               bytes_data := bytes_data t;
                               stream := [] |} |}, [])
      | io :: rest =>
          if is_running (self c) then
            ({| self := self c;
                thread := {| at_pc := Body io;
                             bytes_data := bytes_data t;
                             stream := rest |} |}, [])
          else
            ({| self := self c;
                thread := {| at_pc := Finished;
                             bytes_data := bytes_data t;
                             stream := rest |} |}, [])
      end
  | Body io =>
      match loop_body (self c) (bytes_data t) io with
      | Ok (sh, bytes_data', evs) =>
          ({| self := sh;
              thread := {| at_pc := LoopHead;
                           bytes_data := bytes_data';
                           stream := stream t |} |}, evs)
      | Raise e =>
          ({| self := self c;
              thread := {| at_pc := Finished;
                           bytes_data := bytes_data t;
                           stream := stream t |} |}, [EvStreamError e])
      end
  end.

(** [stop_stream], lines 624-627: clear the flag and return. *)
Definition stop_stream (c : config) : config * list event :=
  ({| self := {| is_running := false;
                 gestures := gestures (self c);
                 frame_queue := frame_queue (self c) |};
      thread := thread c |}, [EvStopReturned]).

(** One pass of [update_display], lines 664-666: take the waiting frame. *)
Definition update_display (c : config) : config * list event :=
  if is_running (self c) then
    ({| self := {| is_running := true;
                   gestures := gestures (self c);
                   frame_queue := None |};
        thread := thread c |}, [])
  else (c, []).

(** Who moves next. *)
Inductive actor : Type :=
| Ingest
| Stop
| Display.

Definition step (a : actor) (c : config) : config * list event :=
  match a with
  | Ingest => ingest_step c
  | Stop => stop_stream c
  | Display => update_display c
  end.

(** An interleaving, given as the order in which the actors move. *)
Fixpoint exec (schedule : list actor) (c : config) : config * list event :=
  match schedule with
  | [] => (c, [])
  | a :: rest =>
      let '(c1, evs1) := step a c in
      let '(c2, evs2) := exec rest c1 in
      (c2, evs1 ++ evs2)
  end.

(** The state [start_stream] leaves behind (lines 616-619) for a stream
    that will deliver [s]. *)
Definition started (gs : Dispatcher.gesture_state) (s : list chunk_io) : config :=
  {| self := {| is_running := true; gestures := gs; frame_queue := None |};
     thread := {| at_pc := LoopHead; bytes_data := []; stream := s |} |}.

Definition dispatches (evs : list event) : nat :=
  length (List.filter (fun e => match e with EvDispatch _ => true | _ => false end) evs).

(** The images among the events of a run. *)
Definition frames_of (evs : list event) : list (list byte) :=
  omap (fun e => match e with EvFrame jpg => Some jpg | _ => None end) evs.

(** Input on which the body of the loop cannot raise: what is cut out
    decodes, and a reported hand has its 21 landmarks. *)
Definition benign (io : chunk_io) : Prop :=
  decodable io = true
  /\ Forall (fun hand => (21 <= length hand)%nat) (multi_hand_landmarks io).

(** How many action threads the ingestion thread can still start once the
    flag is down: one if it is past the test of the flag, none before. *)
Definition budget (c : config) : nat :=
  match at_pc (thread c) with
  | Body _ => 1
  | _ => 0
  end.

End Stream.

(** ** DisplayChannel: [send_to_esp32_display], [update_esp32_settings] *)

Module DisplayChannel.

Inductive log_entry : Type :=
| LogDisplayNotAvailable
| LogSending (method message : string)
| LogHttpUpdated
| LogHttpError (status_code : Z)
| LogHttpException
| LogWsUpdated
| LogWsUnavailable
| LogSettingsUpdated.

(** The fields of [self] the channel uses. [display_method_var] is the
    Tk variable of the settings tab, absent until the tab is built
    ([hasattr(self, 'display_method_var')]). *)
Record channel : Type := {
  esp32_ip : string;
  esp32_stream_port : string;
  esp32_ws_port : string;
  display_method : string;
  display_method_var : option string;
  display_available : bool;
  log : list log_entry
}.

(** [__init__], lines 88-92. *)
Definition initial : channel :=
  {| esp32_ip := "192.168.1.42";
     esp32_stream_port := "80";
     esp32_ws_port := "81";
     display_method := "WebSocket";
     display_method_var := None;
     display_available := true;
     log := [] |}.

(** A call on the network: [requests.post(url, json={"text": message})]
    or the [create_connection]/[send]/[close] sequence on a websocket. *)
Inductive request : Type :=
| HttpPost (url message : string)
| WsSend (ws_url message : string).

(** What the network does with a call: it returns (for a POST, with a
    status code) or raises. *)
Inductive outcome : Type :=
| Returned (status_code : Z)
| Raised.

Definition set_log (c : channel) (l : list log_entry) : channel :=
  {| esp32_ip := esp32_ip c;
     esp32_stream_port := esp32_stream_port c;
     esp32_ws_port := esp32_ws_port c;
     display_method := display_method c;
     display_method_var := display_method_var c;
     display_available := display_available c;
     log := l |}.

Definition set_available (c : channel) (b : bool) : channel :=
  {| esp32_ip := esp32_ip c;
     esp32_stream_port := esp32_stream_port c;
     esp32_ws_port := esp32_ws_port c;
     display_method := display_method c;
     display_method_var := display_method_var c;
     display_available := b;
     log := log c |}.

Definition add_log (c : channel) (e : log_entry) : channel :=
  set_log c (log c ++ [e]).

(** Lines 956-982. [network] answers the call the function makes; the
    second component is that call, [None] when none is made. *)
Definition send_to_esp32_display (c : channel) (message : string)
  (network : request -> outcome) : channel * option request :=
  if negb (display_available c) then
    (add_log c LogDisplayNotAvailable, None)
  else
    let method :=
      match display_method_var c with
      | Some v => v
      | None => display_method c
      end in
    let c := add_log c (LogSending method message) in
    if String.eqb method "HTTP" then
      let url := ("http://" ++ esp32_ip c ++ ":" ++ esp32_stream_port c
                  ++ "/display")%string in
      let req := HttpPost url message in
      match network req with
      | Returned status_code =>
          if status_code =? 200 then (add_log c LogHttpUpdated, Some req)
          else (add_log c (LogHttpError status_code), Some req)
      | Raised =>
          (set_available (add_log c LogHttpException) false, Some req)
      end
    else
      let ws_url := ("ws://" ++ esp32_ip c ++ ":" ++ esp32_ws_port c)%string in
      let req := WsSend ws_url message in
      match network req with
      | Returned _ => (add_log c LogWsUpdated, Some req)
      | Raised => (set_available (add_log c LogWsUnavailable) false, Some req)
      end.

(** Lines 984-991, with the contents of the three entry widgets. *)
Definition update_esp32_settings (c : channel)
  (ip_entry stream_port_entry ws_port_entry : string) : channel :=
  {| esp32_ip := ip_entry;
     esp32_stream_port := stream_port_entry;
     esp32_ws_port := ws_port_entry;
     display_method :=
       match display_method_var c with
       | Some v => v
       | None => display_method c
       end;
     display_method_var := display_method_var c;
     display_available := display_available c;
     log := log c ++ [LogSettingsUpdated] |}.

(** What a user or an action can do to the channel. [Send] carries the
    behaviour of the network at the time of the call; [SelectMethod] is
    the user picking a transport in the settings tab. *)
Inductive op : Type :=
| Send (message : string) (network : request -> outcome)
| UpdateSettings (ip_entry stream_port_entry ws_port_entry : string)
| SelectMethod (v : string).

(** A run of operations: the final channel and the network calls made,
    in order. *)
Fixpoint run (c : channel) (ops : list op) : channel * list request :=
  match ops with
  | [] => (c, [])
  | Send message network :: rest =>
      let '(c1, req) := send_to_esp32_display c message network in
      let '(c2, reqs) := run c1 rest in
      (c2, match req with Some r => r :: reqs | None => reqs end)
  | UpdateSettings ip sp wp :: rest =>
      run (update_esp32_settings c ip sp wp) rest
  | SelectMethod v :: rest =>
      run {| esp32_ip := esp32_ip c;
             esp32_stream_port := esp32_stream_port c;
             esp32_ws_port := esp32_ws_port c;
             display_method := display_method c;
             display_method_var := Some v;
             display_available := display_available c;
             log := log c |} rest
  end.

End DisplayChannel.

(** ** ActionRegistry: [load_gesture_config], [save_gesture_config],
    [update_gesture_mapping] *)

Module Registry.

(** A value as [json.load] builds it. Only a top-level object becomes a
    dictionary that the code mutates; everything below it is read-only. *)
Inductive json : Type :=
| JNull
| JBool (b : bool)
| JNum (q : Q)
| JStr (s : string)
| JArr (items : list json)
| JObj (members : list (string * json)).

(** Dictionary objects live in a heap, so that two names for one
    dictionary can be told from two equal dictionaries. *)
Definition loc : Type := nat.

Abbreviation dict := (gmap string json).
Abbreviation heap := (gmap loc (gmap string json)).

(** A Python reference: to a dictionary of the heap, or an immutable
    value (a list or string of a configuration file is never written). *)
Inductive pyref : Type :=
| RefDict (l : loc)
| Imm (v : json).

(** Where the module global [DEFAULT_GESTURE_ACTIONS] lives. *)
Definition DEFAULT_LOC : loc := 0%nat.

(** Lines 37-45. *)
Definition DEFAULT_GESTURE_ACTIONS : dict :=
  list_to_map
    [("thumbs_up", JStr "translate"); ("peace", JStr "repeat");
     ("fist", JStr "stop"); ("open_palm", JStr "cycle_language");
     ("pointing", JStr "send_msg"); ("ok_sign", JStr "none");
     ("pinch", JStr "none")].

(** Lines 46-50. *)
Definition AVAILABLE_ACTIONS : list string :=
  ["translate"; "repeat"; "stop"; "cycle_language"; "send_msg";
   "show_text_on_esp32"; "speak_custom_text"; "change_source_language";
   "reset_app"; "none"].

(** The heap once the module is imported. *)
Definition module_heap : heap := {[ DEFAULT_LOC := DEFAULT_GESTURE_ACTIONS ]}.

(** A new dictionary object. *)
Definition alloc (h : heap) (d : dict) : loc * heap :=
  let l := fresh (dom h) in (l, <[l := d]> h).

(** [json.load] on a top-level object: later members override earlier
    ones of the same name. *)
Definition dict_of_members (members : list (string * json)) : dict :=
  list_to_map (rev members).

(** [sub in s] on strings. *)
Fixpoint str_contains (sub s : string) : bool :=
  String.prefix sub s
  || match s with
     | EmptyString => false
     | String _ s' => str_contains sub s'
     end.

Definition is_str (k : string) (v : json) : bool :=
  match v with
  | JStr s => String.eqb s k
  | _ => false
  end.

(** [k in cfg]. *)
Definition py_contains (h : heap) (cfg : pyref) (k : string) : result bool :=
  match cfg with
  | RefDict l =>
      match h !! l with
      | Some d => Ok (bool_decide (is_Some (d !! k)))
      | None => Raise TypeError
      end
  | Imm (JArr items) => Ok (existsb (is_str k) items)
  | Imm (JStr s) => Ok (str_contains k s)
  | Imm _ => Raise TypeError
  end.

(** [cfg[k] = v] for a string [k]: only a dictionary accepts it. *)
Definition py_setitem (h : heap) (cfg : pyref) (k : string) (v : json)
  : result heap :=
  match cfg with
  | RefDict l =>
      match h !! l with
      | Some d => Ok (<[l := <[k := v]> d]> h)
      | None => Raise TypeError
      end
  | Imm _ => Raise TypeError
  end.

(** [D.copy()] of a dictionary of the heap. *)
Definition py_copy (h : heap) (l : loc) : loc * heap :=
  alloc h (default ∅ (h !! l)).

(** The configuration file as [load_gesture_config] meets it. *)
Inductive file_state : Type :=
| Absent
| Unreadable
| Malformed
| Holds (v : json).

(** Lines 171-173: the loop over the default keys. *)
Fixpoint add_missing (h : heap) (cfg : pyref) (defaults : list (string * json))
  : result heap :=
  match defaults with
  | [] => mret h
  | (k, v) :: rest =>
      present ← py_contains h cfg k;
      h ← (if negb present then py_setitem h cfg k v else mret h);
      add_missing h cfg rest
  end.

(** [os.path.exists(GESTURE_CONFIG_FILE)]. *)
Definition path_exists (file : file_state) : bool :=
  match file with
  | Absent => false
  | _ => true
  end.

(** Lines 169-170: [open] followed by [json.load]. *)
Definition read_json (file : file_state) : result json :=
  match file with
  | Absent | Unreadable => Raise OSError
  | Malformed => Raise JSONDecodeError
  | Holds v => Ok v
  end.

(** Lines 169-174, the body of the [try]. *)
Definition try_load (file : file_state) (h : heap) : result (pyref * heap) :=
  v ← read_json file;
  let '(cfg, h) :=
    match v with
    | JObj members =>
        let '(l, h) := alloc h (dict_of_members members) in (RefDict l, h)
    | _ => (Imm v, h)
    end in
  h ← add_missing h cfg (map_to_list (default ∅ (h !! DEFAULT_LOC)));
  mret (cfg, h).

(** Lines 166-177: [except Exception] catches whatever the body raises,
    and the function then falls through to the copy of the defaults. *)
Definition load_gesture_config (file : file_state) (h : heap) : pyref * heap :=
  let fallback :=
    let '(l, h) := py_copy h DEFAULT_LOC in (RefDict l, h) in
  if path_exists file then
    match try_load file h with
    | Ok r => r
    | Raise _ => fallback
    end
  else fallback.

(** The registry of a running controller: [self.gesture_actions] and the
    file behind it. *)
Record registry : Type := {
  gesture_actions : pyref;
  objects : heap;
  config_file : file_state;
  saves_failed : nat
}.

(** What [json.dump] writes for a reference. *)
Definition dump (h : heap) (r : pyref) : json :=
  match r with
  | RefDict l => JObj (map_to_list (default ∅ (h !! l)))
  | Imm v => v
  end.

(** Lines 179-185: [writable] tells whether [open(..., 'w')] and the dump
    go through; a failure is logged and swallowed. *)
Definition save_gesture_config (r : registry) (writable : bool) : registry :=
  if writable then
    {| gesture_actions := gesture_actions r;
       objects := objects r;
       config_file := Holds (dump (objects r) (gesture_actions r));
       saves_failed := saves_failed r |}
  else
    {| gesture_actions := gesture_actions r;
       objects := objects r;
       config_file := config_file r;
       saves_failed := S (saves_failed r) |}.

(** Lines 1048-1051. *)
Definition update_gesture_mapping (r : registry) (gesture action : string)
  (writable : bool) : result registry :=
  h ← py_setitem (objects r) (gesture_actions r) gesture (JStr action);
  mret (save_gesture_config
          {| gesture_actions := gesture_actions r;
             objects := h;
             config_file := config_file r;
             saves_failed := saves_failed r |} writable).

(** [self.gesture_actions.get(gesture, 'none')], line 702. *)
Definition action_of (r : registry) (gesture : string) : json :=
  match gesture_actions r with
  | RefDict l => default (JStr "none") (default ∅ (objects r !! l) !! gesture)
  | Imm _ => JStr "none"
  end.

(** The dictionary a reference denotes, if it denotes one. *)
Definition mapping (h : heap) (r : pyref) : option dict :=
  match r with
  | RefDict l => h !! l
  | Imm _ => None
  end.

End Registry.

(** ** Sample inputs *)

(** Every landmark of a sample pose sits at (0.5, 0.5) unless listed. *)
Definition at_rest : Classifier.landmark := {| Classifier.x := 0.5; Classifier.y := 0.5 |}.

Definition lowered : Classifier.landmark := {| Classifier.x := 0.5; Classifier.y := 0.6 |}.

Definition raised : Classifier.landmark := {| Classifier.x := 0.5; Classifier.y := 0.4 |}.

(** A closed hand, thumb tucked in next to the index fingertip. *)
Definition closed_hand : list Classifier.landmark :=
  <[4%nat := lowered]> (<[8%nat := lowered]> (<[12%nat := lowered]>
    (<[16%nat := lowered]> (<[20%nat := lowered]> (repeat at_rest 21))))).

(** Index and middle finger up, the thumb tip on the index fingertip. *)
Definition two_fingers_thumb_touching : list Classifier.landmark :=
  <[4%nat := raised]> (<[8%nat := raised]> (<[12%nat := raised]>
    (<[16%nat := lowered]> (<[20%nat := lowered]> (repeat at_rest 21))))).

(** A network on which every call raises, and one that answers every
    call with a given status code. *)
Definition unreachable : DisplayChannel.request → DisplayChannel.outcome :=
  λ _, DisplayChannel.Raised.

Definition answers (status_code : Z)
  : DisplayChannel.request → DisplayChannel.outcome :=
  λ _, DisplayChannel.Returned status_code.

(** The channel of a new controller after one send that found nothing
    listening. *)
Definition tripped : DisplayChannel.channel :=
  (DisplayChannel.send_to_esp32_display DisplayChannel.initial "Listening..."
     unreachable).1.

(** A stream of one chunk that holds a whole image showing a closed hand. *)
Definition one_fist_frame : list Stream.chunk_io :=
  [{| Stream.chunk := [xff; xd8; x01; xff; xd9];
      Stream.decodable := true;
      Stream.multi_hand_landmarks := [closed_hand];
      Stream.now := 5 |}].

(** A configuration file with a key that is no gesture. *)
Definition persisted_wave : Registry.file_state :=
  Registry.Holds (Registry.JObj [("wave", Registry.JStr "translate");
                                 ("fist", Registry.JStr "repeat")]).

(** The action a loaded configuration holds for a key. *)
Definition loaded_action (file : Registry.file_state) (k : string)
  : option Registry.json :=
  let '(cfg, h) := Registry.load_gesture_config file Registry.module_heap in
  d ← Registry.mapping h cfg; d !! k.

(** The registry of a controller started without a configuration file. *)
Definition fresh_registry : Registry.registry :=
  let '(cfg, h) := Registry.load_gesture_config Registry.Absent Registry.module_heap in
  {| Registry.gesture_actions := cfg;
     Registry.objects := h;
     Registry.config_file := Registry.Absent;
     Registry.saves_failed := 0 |}.

(** ** Multipart streams: images separated by textual part headers *)

Module Multipart.

(** A part header or trailer as an MJPEG server writes it: text, so
    without a byte [0xFF]. *)
Definition text (l : list byte) : bool :=
  forallb (fun b => negb (Bytes.byte_eqb b xff)) l.

(** The bytes of a stream of parts, each a header followed by an image,
    closed by a trailer. *)
Definition stream_of (parts : list (list byte * list byte)) (trailer : list byte)
  : list byte :=
  concat (List.map (fun p => p.1 ++ p.2) parts) ++ trailer.

End Multipart.

(** ** Moving a pose in the image *)

Module Pose.

(** The hand shifted by [(dx, dy)] in the image. *)
Definition shift (dx dy : Q) (p : Classifier.landmark) : Classifier.landmark :=
  {| Classifier.x := (Classifier.x p + dx)%Q; Classifier.y := (Classifier.y p + dy)%Q |}.

(** The hand as a horizontally flipped camera sees it. *)
Definition mirror (p : Classifier.landmark) : Classifier.landmark :=
  {| Classifier.x := (1 - Classifier.x p)%Q; Classifier.y := Classifier.y p |}.

End Pose.

(** A pose given by its five fingertips, every other landmark at rest at
    (0.5, 0.5). *)
Definition hand (thumb index middle ring pinky : Classifier.landmark)
  : list Classifier.landmark :=
  <[4%nat := thumb]> (<[8%nat := index]> (<[12%nat := middle]>
    (<[16%nat := ring]> (<[20%nat := pinky]> (repeat at_rest 21))))).

(** ** Counting over schedules *)

Module Schedules.

(** The moves of the ingestion thread in a schedule. *)
Definition ingest_moves (schedule : list Stream.actor) : nat :=
  length (List.filter (fun a => match a with Stream.Ingest => true | _ => false end)
            schedule).

(** Whether the presentation thread or [stop_stream] moves in a schedule. *)
Definition has_display (schedule : list Stream.actor) : bool :=
  existsb (fun a => match a with Stream.Display => true | _ => false end) schedule.

Definition has_stop (schedule : list Stream.actor) : bool :=
  existsb (fun a => match a with Stream.Stop => true | _ => false end) schedule.

(** The chunks the ingestion thread has still to process: the one in
    hand and those not yet received. *)
Definition chunks_left (c : Stream.config) : nat :=
  match Stream.at_pc (Stream.thread c) with
  | Stream.LoopHead => length (Stream.stream (Stream.thread c))
  | Stream.Body _ => S (length (Stream.stream (Stream.thread c)))
  | Stream.Finished => 0
  end.

End Schedules.

(** ** Resetting the registry: [reset_gesture_config] *)

Module Config.

(** Lines 187-193. [gesture_vars] holds the Tk variables of the gesture
    tab, one per default gesture, absent until the tab is built; each is
    set to what the new registry gives for its key. *)
Definition reset_gesture_config (r : Registry.registry)
  (gesture_vars : option (gmap string Registry.json)) (writable : bool)
  : Registry.registry * option (gmap string Registry.json) :=
  let '(l, h) := Registry.py_copy (Registry.objects r) Registry.DEFAULT_LOC in
  let r1 := {| Registry.gesture_actions := Registry.RefDict l;
               Registry.objects := h;
               Registry.config_file := Registry.config_file r;
               Registry.saves_failed := Registry.saves_failed r |} in
  let vars :=
    match gesture_vars with
    | Some vars => Some (map_imap (fun k _ => Some (Registry.action_of r1 k)) vars)
    | None => None
    end in
  (Registry.save_gesture_config r1 writable, vars).

(** A controller's registry as [__init__] builds it (line 105) from the
    configuration file found at start. *)
Definition startup (file : Registry.file_state) : Registry.registry :=
  let '(cfg, h) := Registry.load_gesture_config file Registry.module_heap in
  {| Registry.gesture_actions := cfg;
     Registry.objects := h;
     Registry.config_file := file;
     Registry.saves_failed := 0 |}.

End Config.

(** ** The registry over a session *)

Module Session.

(** What the gesture tab lets the user do. *)
Inductive op : Type :=
| Update (gesture action : string) (writable : bool)
| Save (writable : bool)
| Reset (writable : bool).

(** A session of operations; the first one that raises ends it. *)
Fixpoint run (r : Registry.registry) (ops : list op) : result Registry.registry :=
  match ops with
  | [] => mret r
  | Update gesture action writable :: rest =>
      r ← Registry.update_gesture_mapping r gesture action writable;
      run r rest
  | Save writable :: rest => run (Registry.save_gesture_config r writable) rest
  | Reset writable :: rest =>
      run (Config.reset_gesture_config r None writable).1 rest
  end.

(** The files from which a controller starts with a dictionary of its
    own: none, an unusable one, or one holding a JSON object. *)
Definition usual (file : Registry.file_state) : bool :=
  match file with
  | Registry.Holds (Registry.JObj _) => true
  | Registry.Holds _ => false
  | _ => true
  end.

(** Whether a configuration value that is no object contains a key: the
    test [k in cfg] of line 172 where it does not raise. *)
Definition holds_key (v : Registry.json) (k : string) : bool :=
  match v with
  | Registry.JArr items => existsb (Registry.is_str k) items
  | Registry.JStr s => Registry.str_contains k s
  | _ => false
  end.

(** The registry owns a dictionary of the heap that is not the defaults'
    object, and the defaults are the compiled-in ones. *)
Definition owns_its_dict (r : Registry.registry) : Prop :=
  exists l d, Registry.gesture_actions r = Registry.RefDict l
         /\ l <> Registry.DEFAULT_LOC
         /\ Registry.objects r !! l = Some d
         /\ Registry.objects r !! Registry.DEFAULT_LOC
           = Some Registry.DEFAULT_GESTURE_ACTIONS.

End Session.

(** ** Languages: [cycle_target_language], [update_target_lang],
    [update_source_lang], [_prompt_change_source_language] *)

Module Languages.

(** [self.languages], lines 95-100, in insertion order. *)
Definition languages : list (string * string) :=
  [("English", "en"); ("Spanish", "es"); ("French", "fr"); ("German", "de");
   ("Italian", "it"); ("Portuguese", "pt"); ("Russian", "ru"); ("Japanese", "ja");
   ("Korean", "ko"); ("Chinese (Simplified)", "zh-CN"); ("Arabic", "ar");
   ("Hindi", "hi"); ("Dutch", "nl"); ("Turkish", "tr"); ("Polish", "pl");
   ("Swedish", "sv")].

(** [list(d.keys())] and [d.get(name, fallback)]. *)
Definition keys (d : list (string * string)) : list string := List.map fst d.

Fixpoint get (d : list (string * string)) (name fallback : string) : string :=
  match d with
  | [] => fallback
  | (k, v) :: rest => if String.eqb k name then v else get rest name fallback
  end.

(** [l.index(x)]: the first position of [x], [None] where Python raises
    [ValueError]. *)
Fixpoint index (l : list string) (x : string) : option nat :=
  match l with
  | [] => None
  | y :: rest => if String.eqb y x then Some 0%nat else option_map S (index rest x)
  end.

(** The fields and Tk variables that hold the two languages. *)
Record selection : Type := {
  source_lang : string;
  target_lang : string;
  source_lang_var : string;
  target_lang_var : string
}.

(** Lines 101-102, 270 and 276. *)
Definition initial : selection :=
  {| source_lang := "en"; target_lang := "es";
     source_lang_var := "English"; target_lang_var := "Spanish" |}.

(** Lines 940-943. *)
Definition update_target_lang (s : selection) : selection :=
  {| source_lang := source_lang s;
     target_lang := get languages (target_lang_var s) (target_lang s);
     source_lang_var := source_lang_var s;
     target_lang_var := target_lang_var s |}.

(** Lines 935-938. *)
Definition update_source_lang (s : selection) : selection :=
  {| source_lang := get languages (source_lang_var s) (source_lang s);
     target_lang := target_lang s;
     source_lang_var := source_lang_var s;
     target_lang_var := target_lang_var s |}.

(** Lines 923-933. The bare [except] sends every failure of the lookup
    to the first key; the table is not empty, so [keys[0]] and the
    indexing of the [try] are in range. *)
Definition cycle_target_language (s : selection) : selection :=
  let ks := keys languages in
  let current := target_lang_var s in
  let new :=
    match index ks current with
    | Some idx => nth ((idx + 1) mod length ks) ks ""
    | None => nth 0 ks ""
    end in
  update_target_lang
    {| source_lang := source_lang s;
       target_lang := target_lang s;
       source_lang_var := source_lang_var s;
       target_lang_var := new |}.

(** Lines 741-749, with the answer of the dialog ([None] when it is
    cancelled). *)
Definition prompt_change_source_language (s : selection) (choice : option string)
  : selection :=
  match choice with
  | Some name =>
      if negb (String.eqb name "") && existsb (String.eqb name) (keys languages)
      then {| source_lang := get languages name "";
              target_lang := target_lang s;
              source_lang_var := name;
              target_lang_var := target_lang_var s |}
      else s
  | None => s
  end.

(** The user picking entries of the two read-only combo boxes (lines
    270-280), an action cycling the target, the source dialog. *)
Inductive op : Type :=
| PickSource (name : string)
| PickTarget (name : string)
| Cycle
| Prompt (choice : option string).

Definition step (s : selection) (o : op) : selection :=
  match o with
  | PickSource name =>
      update_source_lang
        {| source_lang := source_lang s; target_lang := target_lang s;
           source_lang_var := name; target_lang_var := target_lang_var s |}
  | PickTarget name =>
      update_target_lang
        {| source_lang := source_lang s; target_lang := target_lang s;
           source_lang_var := source_lang_var s; target_lang_var := name |}
  | Cycle => cycle_target_language s
  | Prompt choice => prompt_change_source_language s choice
  end.

(** A name of the table with its code. *)
Definition listed (name code : string) : Prop := In (name, code) languages.

(** What the combo boxes allow: names of the table only. *)
Definition from_gui (o : op) : Prop :=
  match o with
  | PickSource name | PickTarget name => In name (keys languages)
  | _ => True
  end.

(** The fields agree with the variables. *)
Definition consistent (s : selection) : Prop :=
  listed (source_lang_var s) (source_lang s)
  /\ listed (target_lang_var s) (target_lang s).

(** [cycle_target_language] repeated. *)
Fixpoint cycles (n : nat) (s : selection) : selection :=
  match n with
  | O => s
  | S n => cycle_target_language (cycles n s)
  end.

End Languages.

(** ** Python text

    A Python [str] is modelled by a [string], one [ascii] per character:
    text up to code point 255. *)

Module Text.

(** [c.isspace()] below code point 256: tab to carriage return, the four
    separators 28-31, the space, next line and the no-break space. *)
Definition isspace (c : Ascii.ascii) : bool :=
  let n := Ascii.nat_of_ascii c in
  ((9 <=? n) && (n <=? 13) || (28 <=? n) && (n <=? 32)
   || (n =? 133) || (n =? 160))%nat.

(** [s.lstrip()], [s.rstrip()] and [s.strip()]. *)
Fixpoint lstrip (s : string) : string :=
  match s with
  | EmptyString => EmptyString
  | String c s' => if isspace c then lstrip s' else s
  end.

Fixpoint rstrip (s : string) : string :=
  match s with
  | EmptyString => EmptyString
  | String c s' =>
      match rstrip s' with
      | EmptyString => if isspace c then EmptyString else String c EmptyString
      | r => String c r
      end
  end.

Definition strip (s : string) : string := rstrip (lstrip s).

(** [s[:n]]. *)
Fixpoint prefix (n : nat) (s : string) : string :=
  match n, s with
  | S n, String c s' => String c (prefix n s')
  | _, _ => EmptyString
  end.

(** Truth of a string: it is not empty. *)
Definition truthy (s : string) : bool :=
  match s with
  | EmptyString => false
  | _ => true
  end.

(** [a or b] on strings. *)
Definition or_else (a b : string) : string := if truthy a then a else b.

End Text.

(** ** Actions: [execute_gesture_action] and the manual senders *)

Module Actions.

(** What an action asks of the rest of the controller. *)
Inductive effect : Type :=
| StartTranslateAndSpeak
| StartRepeatLastTranslation
| StopAudio
| CycleTargetLanguage
| SendToDisplay (message : string)
| PromptAndSpeakCustom
| PromptChangeSourceLanguage
| ResetApplication
| LogUnknownAction (action : Registry.json).

(** Lines 701-729, with the text of the message entry and the last
    translation. The labels and the log line of lines 703-705 are left
    out. An action that is no string equals none of the names. When
    [gesture_actions] is no dictionary (an array or a string that
    [load_gesture_config] returned as it was) it has no [get]: line 702
    raises AttributeError in the action thread, which is [None] here. *)
Definition execute_gesture_action (r : Registry.registry)
  (esp_msg_entry last_translation gesture : string) : option (list effect) :=
  match Registry.gesture_actions r with
  | Registry.Imm _ => None
  | Registry.RefDict _ =>
      let action := Registry.action_of r gesture in
      Some
        match action with
        | Registry.JStr a =>
            if String.eqb a "none" then []
            else if String.eqb a "translate" then [StartTranslateAndSpeak]
            else if String.eqb a "repeat" then [StartRepeatLastTranslation]
            else if String.eqb a "stop" then [StopAudio]
            else if String.eqb a "cycle_language" then [CycleTargetLanguage]
            else if String.eqb a "send_msg" then
              let msg := Text.or_else (Text.strip esp_msg_entry)
                           (Text.or_else last_translation " ") in
              [SendToDisplay (Text.prefix 80 msg)]
            else if String.eqb a "show_text_on_esp32" then
              let msg := Text.or_else last_translation "No translation" in
              [SendToDisplay (Text.prefix 80 msg)]
            else if String.eqb a "speak_custom_text" then [PromptAndSpeakCustom]
            else if String.eqb a "change_source_language" then
              [PromptChangeSourceLanguage]
            else if String.eqb a "reset_app" then [ResetApplication]
            else [LogUnknownAction action]
        | _ => [LogUnknownAction action]
        end
  end.

(** The message a network call carries. *)
Definition message_of (req : DisplayChannel.request) : string :=
  match req with
  | DisplayChannel.HttpPost _ message => message
  | DisplayChannel.WsSend _ message => message
  end.

(** Lines 1053-1060: the new channel, the new text of the entry, the
    network call made, and whether the warning box was shown. *)
Definition send_custom_message (c : DisplayChannel.channel) (esp_msg_entry : string)
  (network : DisplayChannel.request -> DisplayChannel.outcome)
  : DisplayChannel.channel * string * option DisplayChannel.request * bool :=
  if Text.truthy esp_msg_entry then
    let '(c, req) :=
      DisplayChannel.send_to_esp32_display c (Text.prefix 80 esp_msg_entry) network in
    (c, EmptyString, req, false)
  else (c, esp_msg_entry, None, true).

(** Lines 946-954, with the texts of the two line entries. *)
Definition send_to_i2c_display (c : DisplayChannel.channel) (line1 line2 : string)
  (network : DisplayChannel.request -> DisplayChannel.outcome)
  : DisplayChannel.channel * option DisplayChannel.request * bool :=
  let l1 := Text.prefix 21 line1 in
  let l2 := Text.prefix 21 line2 in
  if negb (Text.truthy l1) && negb (Text.truthy l2) then (c, None, true)
  else
    let message := (l1 ++ "|" ++ l2)%string in
    let '(c, req) := DisplayChannel.send_to_esp32_display c message network in
    (c, req, false).

End Actions.

(** ** Translation: [translate_text], [translate_and_speak],
    [repeat_last_translation] *)

Module Translator.

(** The exceptions the handlers of [translate_and_speak] tell apart. *)
Inductive failure : Type :=
| WaitTimeoutError
| UnknownValueError
| OtherError.

Inductive attempt (A : Type) : Type :=
| Done (a : A)
| Failed (e : failure).

Arguments Done {A} a.
Arguments Failed {A} e.

(** The world outside during one call: the microphone (opening it,
    adjusting and listening), Google's recogniser for a language, the two
    translation libraries for a text and a pair of languages, and the
    network of the display. *)
Record services : Type := {
  listen : attempt unit;
  recognize_google : string -> attempt string;
  google_translator : string -> string -> string -> attempt string;
  googletrans : string -> string -> string -> attempt string;
  network : DisplayChannel.request -> DisplayChannel.outcome
}.

(** Lines 761-787: every engine ends in deep_translator's
    [GoogleTranslator]; only "googletrans" tries its own library first.
    The outer handler logs and raises again. *)
Definition translate_text (engine text src_code tgt_code : string) (w : services)
  : attempt string :=
  if String.eqb engine "GoogleTranslator" then
    google_translator w text src_code tgt_code
  else if String.eqb engine "googletrans" then
    match googletrans w text src_code tgt_code with
    | Done t => Done t
    | Failed _ => google_translator w text src_code tgt_code
    end
  else if String.eqb engine "GoogleCloud" then
    google_translator w text src_code tgt_code
  else google_translator w text src_code tgt_code.

(** The part of the controller these functions use. *)
Record state : Type := {
  channel : DisplayChannel.channel;
  last_translation : string;
  langs : Languages.selection;
  selected_translation_engine : string
}.

(** What a call did: the state it leaves, the messages it passed to
    [send_to_esp32_display], the network calls those made, and what
    [speak_text] was given. *)
Record report : Type := {
  after : state;
  shown : list string;
  calls : list DisplayChannel.request;
  spoken : option (string * string)
}.

(** [send_to_esp32_display] from within these functions. *)
Definition show (s : state) (message : string) (w : services)
  : state * list DisplayChannel.request :=
  let '(c, req) := DisplayChannel.send_to_esp32_display (channel s) message (network w) in
  ({| channel := c;
      last_translation := last_translation s;
      langs := langs s;
      selected_translation_engine := selected_translation_engine s |},
   match req with Some r => [r] | None => [] end).

(** Lines 789-833. [speak_text] catches every exception of its own
    (lines 836-893), so it only appears as what is spoken; [log] catches
    its own as well (lines 1089-1095), and queueing the label update of
    line 808 on the Tk loop is taken to succeed. The languages are those
    selected when the call is made. *)
Definition translate_and_speak (s : state) (w : services) : report :=
  let '(s, calls0) := show s "Listening..." w in
  let src_code :=
    Languages.get Languages.languages (Languages.source_lang_var (langs s)) "en" in
  let tgt_code :=
    Languages.get Languages.languages (Languages.target_lang_var (langs s)) "es" in
  let translated :=
    match listen w with
    | Failed e => Failed e
    | Done _ =>
        match recognize_google w src_code with
        | Failed e => Failed e
        | Done text =>
            translate_text (selected_translation_engine s) text src_code tgt_code w
        end
    end in
  match translated with
  | Done translated_text =>
      let s := {| channel := channel s;
                  last_translation := translated_text;
                  langs := langs s;
                  selected_translation_engine := selected_translation_engine s |} in
      let '(s, calls1) := show s (Text.prefix 80 translated_text) w in
      {| after := s;
         shown := ["Listening..."; Text.prefix 80 translated_text];
         calls := calls0 ++ calls1;
         spoken := Some (translated_text, tgt_code) |}
  | Failed e =>
      let status :=
        match e with
        | WaitTimeoutError => "Timeout"
        | UnknownValueError => "Not understood"
        | OtherError => "Error"
        end in
      let '(s, calls1) := show s status w in
      {| after := s;
         shown := ["Listening..."; status];
         calls := calls0 ++ calls1;
         spoken := None |}
  end.

(** Lines 1077-1087, the definition in force (it replaces that of lines
    895-906, which differs in a log line only). *)
Definition repeat_last_translation (s : state) (w : services) : report :=
  if Text.truthy (last_translation s) then
    let tgt_code :=
      Languages.get Languages.languages (Languages.target_lang_var (langs s)) "es" in
    let '(s1, calls1) := show s (Text.prefix 80 (last_translation s)) w in
    {| after := s1;
       shown := [Text.prefix 80 (last_translation s)];
       calls := calls1;
       spoken := Some (last_translation s, tgt_code) |}
  else {| after := s; shown := []; calls := []; spoken := None |}.

(** A new controller's state (lines 84, 88-92, 101-102, 120). *)
Definition initial : state :=
  {| channel := DisplayChannel.initial;
     last_translation := "";
     langs := Languages.initial;
     selected_translation_engine := "GoogleTranslator" |}.

End Translator.

(** ** More sample inputs *)

(** A stream of two chunks, each a whole image showing a closed hand. *)
Definition two_fist_frames : list Stream.chunk_io :=
  [{| Stream.chunk := [xff; xd8; x01; xff; xd9];
      Stream.decodable := true;
      Stream.multi_hand_landmarks := [closed_hand];
      Stream.now := 5 |};
   {| Stream.chunk := [xff; xd8; x02; xff; xd9];
      Stream.decodable := true;
      Stream.multi_hand_landmarks := [closed_hand];
      Stream.now := 7 |}].

(** A chunk holding a whole image on which MediaPipe reports a hand of
    only 20 landmarks. *)
Definition short_hand_frame : Stream.chunk_io :=
  {| Stream.chunk := [xff; xd8; x01; xff; xd9];
     Stream.decodable := true;
     Stream.multi_hand_landmarks := [take 20 closed_hand];
     Stream.now := 5 |}.

(** A configuration file holding the names of the seven gestures as a
    JSON array. *)
Definition array_of_gestures : Registry.json :=
  Registry.JArr (List.map Registry.JStr Classifier.priority).

(** A world in which the speaker says "hello", every service works and
    nothing listens on the display's address. *)
Definition hello_no_display : Translator.services :=
  {| Translator.listen := Translator.Done tt;
     Translator.recognize_google := fun _ => Translator.Done "hello";
     Translator.google_translator := fun _ _ _ => Translator.Done "hola";
     Translator.googletrans := fun _ _ _ => Translator.Failed Translator.OtherError;
     Translator.network := unreachable |}.



(** * Properties *)

(** ** [find] on byte strings *)

Lemma is_prefix_length sub l :
  Bytes.is_prefix sub l = true → (length sub ≤ length l)%nat.
Proof.
  revert l. induction sub as [|a sub IH]; intros [|b l]; simpl; try lia; try done.
  intros [_ H]%andb_prop. apply IH in H. lia.
Qed.

Lemma is_prefix_app_true sub l r :
  Bytes.is_prefix sub l = true → Bytes.is_prefix sub (l ++ r) = true.
Proof.
  revert l. induction sub as [|a sub IH]; intros [|b l]; simpl; try done.
  intros [-> H]%andb_prop. simpl. by apply IH.
Qed.

Lemma is_prefix_app_long sub l r :
  (length sub ≤ length l)%nat →
  Bytes.is_prefix sub (l ++ r) = Bytes.is_prefix sub l.
Proof.
  revert l. induction sub as [|a sub IH]; intros [|b l]; simpl; try done; try lia.
  intros H. rewrite IH; [done | lia].
Qed.

Lemma find_from_bounds sub l i k :
  Bytes.find_from sub l i = Some k →
  (i ≤ k ∧ (k - i) + length sub ≤ length l)%nat.
Proof.
  revert i. induction l as [|a l IH]; intros i; simpl.
  - destruct (Bytes.is_prefix sub []) eqn:E; [|done].
    intros [= <-]. apply is_prefix_length in E. simpl in E. lia.
  - destruct (Bytes.is_prefix sub (a :: l)) eqn:E.
    + intros [= <-]. apply is_prefix_length in E. simpl in E. lia.
    + intros H%IH. simpl. lia.
Qed.

Lemma find_from_app sub l r i k :
  Bytes.find_from sub l i = Some k → Bytes.find_from sub (l ++ r) i = Some k.
Proof.
  revert i. induction l as [|a l IH]; intros i.
  - simpl. destruct (Bytes.is_prefix sub []) eqn:E; [|done].
    intros [= <-]. destruct sub; [|done]. by destruct r.
  - cbn [Bytes.find_from app]. destruct (Bytes.is_prefix sub (a :: l)) eqn:E.
    + intros [= <-]. change (a :: l ++ r) with ((a :: l) ++ r).
      by rewrite (is_prefix_app_true _ _ _ E).
    + intros H. pose proof (find_from_bounds _ _ _ _ H) as [_ Hb].
      change (a :: l ++ r) with ((a :: l) ++ r).
      rewrite is_prefix_app_long, E; [by apply IH | simpl; lia].
Qed.

Lemma find_found l sub k :
  Bytes.find l sub = Z.of_nat k →
  Bytes.find_from sub l 0 = Some k.
Proof.
  unfold Bytes.find. destruct (Bytes.find_from sub l 0); [|lia].
  intros H. f_equal. lia.
Qed.

Lemma find_app l r sub k :
  Bytes.find l sub = Z.of_nat k → Bytes.find (l ++ r) sub = Z.of_nat k.
Proof.
  intros H%find_found. unfold Bytes.find. by rewrite (find_from_app _ _ r _ _ H).
Qed.

Lemma find_range l sub :
  Bytes.find l sub = -1
  ∨ 0 ≤ Bytes.find l sub ∧ Bytes.find l sub + Z.of_nat (length sub) ≤ Z.of_nat (length l).
Proof.
  unfold Bytes.find. destruct (Bytes.find_from sub l 0) as [k|] eqn:E; [|by left].
  right. apply find_from_bounds in E. lia.
Qed.

(** ** The demultiplexer on well-delimited images *)

Lemma well_delimited_find img :
  Demux.well_delimited img = true →
  Bytes.find img Demux.SOI = 0
  ∧ Bytes.find img Demux.EOI = Z.of_nat (length img) - 2
  ∧ (2 ≤ length img)%nat.
Proof.
  unfold Demux.well_delimited. intros [H1%Z.eqb_eq H2%Z.eqb_eq]%andb_prop.
  split; [done|]. split; [done|].
  destruct (find_range img Demux.SOI) as [H|H]; simpl in *; lia.
Qed.

(** A buffer that holds a whole image in front: the image is cut out. *)
Lemma demux_step_image bytes_data chunk img rest :
  Demux.well_delimited img = true →
  bytes_data ++ chunk = img ++ rest →
  Demux.demux_step bytes_data chunk = (rest, Some img).
Proof.
  intros (Ha & Hb & Hlen)%well_delimited_find Heq.
  unfold Demux.demux_step. rewrite Heq.
  rewrite (find_app img rest Demux.SOI 0) by done.
  rewrite (find_app img rest Demux.EOI (length img - 2)) by lia.
  replace (Z.of_nat (length img - 2) + 2) with (Z.of_nat (length img)) by lia.
  replace (negb (Z.of_nat 0 =? -1) && negb (Z.of_nat (length img - 2) =? -1))
    with true
    by (symmetry; apply andb_true_iff; split; apply negb_true_iff, Z.eqb_neq; lia).
  unfold Bytes.slice, Bytes.slice_from. rewrite !Nat2Z.id. simpl.
  rewrite Nat.sub_0_r, drop_0, take_app_length, drop_app_length. done.
Qed.

(** A buffer that is a proper part of one image: nothing is cut out. *)
Lemma demux_step_partial bytes_data chunk img rest :
  Demux.well_delimited img = true →
  bytes_data ++ chunk ++ rest = img →
  (length (bytes_data ++ chunk) < length img)%nat →
  Demux.demux_step bytes_data chunk = (bytes_data ++ chunk, None).
Proof.
  intros (Ha & Hb & Hlen)%well_delimited_find Heq Hlt.
  unfold Demux.demux_step.
  destruct (find_range (bytes_data ++ chunk) Demux.EOI) as [H|[H1 H2]].
  - rewrite H. simpl. by rewrite andb_false_r.
  - exfalso.
    pose proof (find_app (bytes_data ++ chunk) rest Demux.EOI
                  (Z.to_nat (Bytes.find (bytes_data ++ chunk) Demux.EOI))) as H.
    rewrite Z2Nat.id in H by done. specialize (H eq_refl).
    rewrite <- app_assoc, Heq, Hb in H. simpl in H2. lia.
Qed.

Lemma demux_step_nothing : Demux.demux_step [] [] = ([], None).
Proof. reflexivity. Qed.

(** The invariant of the loop on a stream of well-delimited images: the
    accumulator always starts at an image boundary, so what has been cut
    out is an initial run of the images, and what remains is the rest. *)
Lemma demux_run_images chunks : ∀ bytes_data imgs,
  Forall (λ img, Demux.well_delimited img = true) imgs →
  bytes_data ++ concat chunks = concat imgs →
  ∃ k : nat,
    (k ≤ length chunks)%nat
    ∧ (Demux.demux_run bytes_data chunks).1 = take k imgs
    ∧ (Demux.demux_run bytes_data chunks).2 = concat (drop k imgs)
    ∧ ((∀ c img, c ∈ chunks → img ∈ imgs → (length c ≤ length img)%nat) →
       match imgs with
       | [] => True
       | img :: _ => (length bytes_data < length img)%nat
       end →
       k = length imgs).
Proof.
  induction chunks as [|chunk chunks IH]; intros bytes_data imgs Hwd Heq.
  - simpl in *. rewrite app_nil_r in Heq. exists 0%nat.
    split; [lia|]. split; [done|]. split; [by rewrite drop_0|].
    intros _ Hlen. destruct imgs as [|img imgs]; [done|].
    exfalso. subst bytes_data. simpl in Hlen. rewrite length_app in Hlen. lia.
  - cbn [Demux.demux_run concat] in *.
    destruct imgs as [|img imgs].
    + (* no image left: every remaining byte string is empty *)
      simpl in Heq. apply app_eq_nil in Heq as [-> [-> Hrest]%app_eq_nil].
      rewrite demux_step_nothing.
      destruct (IH [] [] Hwd) as (k & Hk & H1 & H2 & _); [by rewrite Hrest|].
      destruct (Demux.demux_run [] chunks) as [frames final]. simpl in *.
      exists 0%nat. rewrite take_nil in H1. rewrite drop_nil in H2.
      repeat split; try done. lia.
    + apply Forall_cons in Hwd as [Hw Hwd].
      pose proof (well_delimited_find _ Hw) as (_ & _ & Hlen2).
      rewrite app_assoc in Heq. simpl in Heq.
      destruct (decide (length (bytes_data ++ chunk) < length img)%nat) as [Hlt|Hge].
      * (* the image is still incomplete *)
        assert (img = (bytes_data ++ chunk)
                      ++ take (length img - length (bytes_data ++ chunk)) (concat chunks))
          as Himg.
        { rewrite <- take_app_ge by lia. by rewrite Heq, take_app_length. }
        rewrite (demux_step_partial bytes_data chunk img
                   (take (length img - length (bytes_data ++ chunk)) (concat chunks)))
          by (try done; by rewrite app_assoc, <- Himg).
        destruct (IH (bytes_data ++ chunk) (img :: imgs)) as (k & Hk & H1 & H2 & H3);
          [by constructor | done |].
        destruct (Demux.demux_run (bytes_data ++ chunk) chunks) as [frames final].
        simpl in *. exists k. repeat split; try done; [lia|].
        intros Hc _. apply H3; [|done].
        intros c i Hc' Hi. apply Hc; [by right | done].
      * (* the image is complete: it is cut out *)
        assert (bytes_data ++ chunk
                = img ++ drop (length img) (bytes_data ++ chunk)) as Hsplit.
        { rewrite <- (take_drop (length img) (bytes_data ++ chunk)) at 1. f_equal.
          rewrite <- (take_app_le _ (concat chunks)) by lia.
          by rewrite Heq, take_app_length. }
        assert (drop (length img) (bytes_data ++ chunk) ++ concat chunks
                = concat imgs) as Hrest.
        { rewrite <- drop_app_le by lia. by rewrite Heq, drop_app_length. }
        rewrite (demux_step_image bytes_data chunk img _ Hw Hsplit).
        destruct (IH _ imgs Hwd Hrest) as (k & Hk & H1 & H2 & H3).
        destruct (Demux.demux_run (drop (length img) (bytes_data ++ chunk)) chunks)
          as [frames final].
        simpl in *. exists (S k). repeat split; simpl; try done; [lia | by f_equal |].
        intros Hc Hb. f_equal. apply H3.
        -- intros c i Hc' Hi. apply Hc; [by right | by right].
        -- destruct imgs as [|img' imgs']; [done|].
           rewrite length_drop. rewrite length_app in *.
           specialize (Hc chunk img' ltac:(by left) ltac:(right; by left)). lia.
Qed.

Lemma find_app_none l r sub :
  Bytes.find (l ++ r) sub = -1 → Bytes.find l sub = -1.
Proof.
  intros H. destruct (find_range l sub) as [|[H1 H2]]; [done|].
  pose proof (find_app l r sub (Z.to_nat (Bytes.find l sub))) as H'.
  rewrite Z2Nat.id in H' by done. specialize (H' eq_refl). lia.
Qed.

(** Without a marker of either kind in sight, the step keeps everything. *)
Lemma demux_step_no_marker bytes_data chunk :
  Bytes.find (bytes_data ++ chunk) Demux.SOI = -1
  ∨ Bytes.find (bytes_data ++ chunk) Demux.EOI = -1 →
  Demux.demux_step bytes_data chunk = (bytes_data ++ chunk, None).
Proof.
  unfold Demux.demux_step. intros [-> | ->]; simpl; [done|].
  by rewrite andb_false_r.
Qed.

Lemma find_zeros n sub i :
  sub ≠ [] → (∀ b, b ∈ sub → b ≠ x00) →
  Bytes.find_from sub (repeat x00 n) i = None.
Proof.
  intros Hne Hnz. revert i. induction n as [|n IH]; intros i.
  - simpl. destruct sub; done.
  - cbn [repeat Bytes.find_from].
    destruct sub as [|b sub]; [done|].
    assert (Bytes.is_prefix (b :: sub) (x00 :: repeat x00 n) = false) as ->.
    { simpl. apply andb_false_iff. left.
      specialize (Hnz b ltac:(by left)). by destruct b. }
    apply IH.
Qed.

Lemma concat_singletons n : concat (repeat [x00] n) = repeat x00 n.
Proof. induction n as [|n IH]; simpl; [done | by rewrite IH]. Qed.

(** C5 (corrected): on a stream that is the concatenation of
    well-delimited images, the demultiplexer cuts out an initial run of
    the images, unchanged and in order, at most one per chunk; when no
    chunk is longer than an image (so that no chunk completes more than
    one image) it cuts out all of them and leaves the accumulator
    empty. *)
Theorem demux_emits_images_in_order (chunks imgs : list (list byte)) :
  Forall (λ img, Demux.well_delimited img = true) imgs →
  concat chunks = concat imgs →
  (∃ k : nat, (k ≤ length chunks)%nat
              ∧ (Demux.demux_run [] chunks).1 = take k imgs)
  ∧ ((∀ c img, c ∈ chunks → img ∈ imgs → (length c ≤ length img)%nat) →
     Demux.demux_run [] chunks = (imgs, [])).
Proof.
  intros Hwd Heq.
  destruct (demux_run_images chunks [] imgs Hwd Heq) as (k & Hk & H1 & H2 & H3).
  split; [by exists k|].
  intros Hc. assert (k = length imgs) as ->.
  { apply H3; [done|]. destruct imgs as [|img imgs]; [done|].
    apply Forall_cons in Hwd as [(_ & _ & ?)%well_delimited_find _]. simpl. lia. }
  rewrite firstn_all in H1. rewrite drop_all in H2.
  destruct (Demux.demux_run [] chunks). simpl in *. by subst.
Qed.

Lemma demux_emits_images_in_order_witness :
  Demux.demux_run []
    [[xff; xd8; x01]; [x02; xff; xd9]; [xff; xd8; x03]; [xff; xd9]]
  = ([[xff; xd8; x01; x02; xff; xd9]; [xff; xd8; x03; xff; xd9]], []).
Proof.
  apply (demux_emits_images_in_order
           [[xff; xd8; x01]; [x02; xff; xd9]; [xff; xd8; x03]; [xff; xd9]]
           [[xff; xd8; x01; x02; xff; xd9]; [xff; xd8; x03; xff; xd9]]).
  - repeat constructor.
  - reflexivity.
  - intros c img Hc Himg.
    repeat (apply elem_of_cons in Hc as [->|Hc]);
      repeat (apply elem_of_cons in Himg as [->|Himg]);
      simpl; try lia; by apply elem_of_nil in Hc || by apply elem_of_nil in Himg.
Defined.

(** Whatever two well-delimited images are, when they arrive in one chunk
    only the first is cut out. *)
Lemma two_images_in_one_chunk img1 img2 :
  Demux.well_delimited img1 = true →
  Demux.demux_run [] [img1 ++ img2] = ([img1], img2).
Proof.
  intros H1. cbn [Demux.demux_run].
  by rewrite (demux_step_image [] (img1 ++ img2) img1 img2 H1 eq_refl).
Qed.

(** C5, counterexample: two well-delimited images arriving in one
    chunk yield a single frame; the second stays in the accumulator. *)
Lemma demux_two_images_in_one_chunk :
  Forall (λ img, Demux.well_delimited img = true)
    [[xff; xd8; x01; xff; xd9]; [xff; xd8; x02; xff; xd9]]
  ∧ Demux.demux_run []
      [[xff; xd8; x01; xff; xd9] ++ [xff; xd8; x02; xff; xd9]]
    = ([[xff; xd8; x01; xff; xd9]], [xff; xd8; x02; xff; xd9])
  ∧ length (Demux.demux_run []
              [[xff; xd8; x01; xff; xd9] ++ [xff; xd8; x02; xff; xd9]]).1
    ≠ 2%nat.
Proof. split; [repeat constructor | split; [reflexivity | by vm_compute]]. Qed.

(** Without both markers in the bytes received, the run keeps them all. *)
Lemma demux_run_no_marker chunks : ∀ bytes_data,
  Bytes.find (bytes_data ++ concat chunks) Demux.SOI = -1
  ∨ Bytes.find (bytes_data ++ concat chunks) Demux.EOI = -1 →
  Demux.demux_run bytes_data chunks = ([], bytes_data ++ concat chunks).
Proof.
  induction chunks as [|chunk chunks IH]; intros bytes_data H.
  - simpl. by rewrite app_nil_r.
  - cbn [Demux.demux_run concat] in *. rewrite app_assoc in H.
    rewrite demux_step_no_marker
      by (destruct H as [H|H]; [left|right]; by eapply find_app_none).
    rewrite (IH _ H). by rewrite app_assoc.
Qed.

(** C8 (corrected): the accumulator has no cap. While the bytes received
    lack a start marker or lack an end marker, no frame is cut out and
    the accumulator holds every byte received so far. *)
Theorem accumulator_keeps_everything (chunks : list (list byte))
  (bytes_data : list byte) :
  Bytes.find (bytes_data ++ concat chunks) Demux.SOI = -1
  ∨ Bytes.find (bytes_data ++ concat chunks) Demux.EOI = -1 →
  Demux.demux_run bytes_data chunks = ([], bytes_data ++ concat chunks)
  ∧ length (Demux.demux_run bytes_data chunks).2
    = (length bytes_data + sum_list (length <$> chunks))%nat.
Proof.
  intros H. rewrite (demux_run_no_marker chunks bytes_data H).
  split; [done|]. simpl. rewrite length_app. f_equal.
  clear H. induction chunks as [|chunk chunks IH]; [done|].
  simpl. rewrite length_app. by rewrite IH.
Qed.

Lemma accumulator_keeps_everything_witness :
  Demux.demux_run [x07] [[xff; xd8; x01]; [x02; xff]]
  = ([], [x07; xff; xd8; x01; x02; xff])
  ∧ length (Demux.demux_run [x07] [[xff; xd8; x01]; [x02; xff]]).2 = 6%nat.
Proof.
  apply (accumulator_keeps_everything [[xff; xd8; x01]; [x02; xff]] [x07]).
  right. reflexivity.
Defined.

(** C8, counterexample: no bound [M] holds. For every [M] a stream of
    zero bytes, in chunks of one byte, leaves more than [M + 2048] bytes
    in the accumulator. *)
Lemma accumulator_has_no_bound :
  (∃ M : nat, ∀ chunks : list (list byte),
      Forall (λ c, (length c ≤ 2048)%nat) chunks →
      (length (Demux.demux_run [] chunks).2 ≤ M + 2048)%nat)
  ↔ False.
Proof.
  split; [|done]. intros [M H].
  specialize (H (repeat [x00] (M + 2049))).
  pose proof (concat_singletons (M + 2049)) as Hc.
  rewrite demux_run_no_marker in H.
  - simpl in H. rewrite Hc, repeat_length in H.
    specialize (H ltac:(apply Forall_forall; intros c ->%list_elem_of_In%repeat_spec; simpl; lia)).
    lia.
  - right. simpl. rewrite Hc. unfold Bytes.find.
    rewrite find_zeros; [done | done |].
    intros b Hb. repeat (apply elem_of_cons in Hb as [->|Hb]); try done.
    by apply elem_of_nil in Hb.
Qed.

(** ** The classifier *)

Lemma read_fingers_short landmarks :
  (length landmarks < 21)%nat → Classifier.read_fingers landmarks = Raise IndexError.
Proof.
  intros H. assert (landmarks !! 20%nat = None) as H20 by (apply lookup_ge_None; lia).
  unfold Classifier.read_fingers, Classifier.getitem.
  repeat (match goal with
          | |- context [landmarks !! 20%nat] => rewrite H20
          | |- context [landmarks !! ?i] => destruct (landmarks !! i); simpl; [|done]
          end).
  done.
Qed.

Lemma read_fingers_full landmarks :
  (21 ≤ length landmarks)%nat → ∃ f, Classifier.read_fingers landmarks = Ok f.
Proof.
  intros H. unfold Classifier.read_fingers, Classifier.getitem.
  repeat (match goal with
          | |- context [landmarks !! ?i] =>
              let p := fresh "p" in
              destruct (lookup_lt_is_Some_2 landmarks i ltac:(lia)) as [p ->]; simpl
          end).
  eauto.
Qed.

Lemma detect_gesture_total landmarks :
  (21 ≤ length landmarks)%nat →
  ∃ gesture, Classifier.detect_gesture landmarks = Ok gesture.
Proof.
  intros H. unfold Classifier.detect_gesture.
  destruct (read_fingers_full landmarks H) as [f ->]. simpl. eauto.
Qed.

(** C6 (corrected): a pose with fewer than the 21 hand landmarks makes
    [detect_gesture] raise [IndexError]; it returns a label exactly on
    poses with at least 21 landmarks. *)
Theorem detect_gesture_needs_21_landmarks (landmarks : list Classifier.landmark) :
  ((length landmarks < 21)%nat →
   Classifier.detect_gesture landmarks = Raise IndexError)
  ∧ ((21 ≤ length landmarks)%nat →
     ∃ gesture, Classifier.detect_gesture landmarks = Ok gesture).
Proof.
  split; intros H.
  - unfold Classifier.detect_gesture. by rewrite read_fingers_short.
  - by apply detect_gesture_total.
Qed.

Lemma detect_gesture_needs_21_landmarks_witness :
  Classifier.detect_gesture (repeat at_rest 8) = Raise IndexError
  ∧ ∃ gesture, Classifier.detect_gesture (repeat at_rest 21) = Ok gesture.
Proof.
  split.
  - apply (detect_gesture_needs_21_landmarks (repeat at_rest 8)). simpl. lia.
  - apply (detect_gesture_needs_21_landmarks (repeat at_rest 21)). simpl. lia.
Defined.

(** C6, counterexample: on a pose of 20 landmarks the classifier does
    not return "None", it raises. *)
Lemma detect_gesture_short_pose_raises :
  Classifier.detect_gesture (take 20 closed_hand) = Raise IndexError.
Proof. reflexivity. Qed.

Lemma decide_gesture_first_match f :
  Classifier.decide_gesture f = hd "None" (Classifier.matching f).
Proof.
  destruct f as [t i m r p d].
  unfold Classifier.decide_gesture, Classifier.matching, Classifier.condition,
    Classifier.priority.
  cbn [Classifier.thumb_up Classifier.index_up Classifier.middle_up
       Classifier.ring_up Classifier.pinky_up Classifier.thumb_index_dist2].
  generalize (Classifier.sqrt_lt d 0.05) (Classifier.sqrt_lt d 0.08).
  intros b1 b2. by destruct t, i, m, r, p, b1, b2.
Qed.

(** C9 (corrected): on a pose of at least 21 landmarks [detect_gesture]
    returns one label, the first in the order thumbs_up, peace, fist,
    open_palm, pointing, ok_sign, pinch whose test the pose passes, and
    "None" only when it passes none. *)
Theorem detect_gesture_first_match_wins (landmarks : list Classifier.landmark) :
  (21 ≤ length landmarks)%nat →
  ∃ f, Classifier.read_fingers landmarks = Ok f
       ∧ Classifier.detect_gesture landmarks = Ok (hd "None" (Classifier.matching f))
       ∧ (Classifier.detect_gesture landmarks = Ok "None"
          ↔ Classifier.matching f = []).
Proof.
  intros H. destruct (read_fingers_full landmarks H) as [f Hf].
  exists f. split; [done|]. unfold Classifier.detect_gesture. rewrite Hf. simpl.
  rewrite decide_gesture_first_match. split; [done|].
  split.
  - intros [= Hhd]. destruct (Classifier.matching f) as [|g gs] eqn:E; [done|].
    simpl in Hhd. subst g. exfalso.
    assert ("None" ∈ Classifier.matching f) as Hin by (rewrite E; by left).
    unfold Classifier.matching in Hin.
    apply list_elem_of_In, filter_In in Hin as [_ Hcond]. done.
  - by intros ->.
Qed.

Lemma detect_gesture_first_match_wins_witness :
  ∃ f, Classifier.read_fingers closed_hand = Ok f
       ∧ Classifier.detect_gesture closed_hand = Ok (hd "None" (Classifier.matching f))
       ∧ (Classifier.detect_gesture closed_hand = Ok "None"
          ↔ Classifier.matching f = []).
Proof.
  apply (detect_gesture_first_match_wins closed_hand). simpl. lia.
Defined.

(** C9, counterexample: a closed hand with the thumb tip at the index
    fingertip passes the tests of both fist and pinch, and is classified
    as fist; two raised fingers with the thumb tip on the index
    fingertip (the peace pattern within the ok-sign distance) are
    classified as peace. Neither resolves to "None". *)
Lemma ambiguous_pose_is_not_none :
  (f ← Classifier.read_fingers closed_hand; mret (Classifier.matching f))
  = Ok ["fist"; "pinch"]
  ∧ Classifier.detect_gesture closed_hand = Ok "fist"
  ∧ (f ← Classifier.read_fingers two_fingers_thumb_touching;
     mret (Classifier.sqrt_lt (Classifier.thumb_index_dist2 f) 0.05))
    = Ok true
  ∧ Classifier.detect_gesture two_fingers_thumb_touching = Ok "peace".
Proof. repeat split; reflexivity. Qed.

(** ** The loop and its demultiplexer *)

Lemma loop_body_benign sh bytes_data io :
  Stream.benign io →
  ∃ sh' evs,
    Stream.loop_body sh bytes_data io
    = Ok (sh', (Demux.demux_step bytes_data (Stream.chunk io)).1, evs)
    ∧ Stream.is_running sh' = Stream.is_running sh
    ∧ Stream.frames_of evs
      = match (Demux.demux_step bytes_data (Stream.chunk io)).2 with
        | Some jpg => [jpg]
        | None => []
        end.
Proof.
  intros [Hdec Hhands]. unfold Stream.loop_body.
  destruct (Demux.demux_step bytes_data (Stream.chunk io)) as [b [jpg|]]; simpl.
  - rewrite Hdec. simpl.
    assert (∃ g, Stream.first_hand_gesture (Stream.multi_hand_landmarks io) = Ok g)
      as [g ->].
    { destruct (Stream.multi_hand_landmarks io) as [|hand hands]; simpl; [by eexists|].
      apply Forall_cons in Hhands as [Hhand _].
      by apply detect_gesture_total. }
    simpl. destruct (Dispatcher.on_gesture _ g _) as [gs [fired|]]; by do 2 eexists.
  - by do 2 eexists.
Qed.

Lemma ingest_one_chunk rest sh bytes_data io s sh' bytes_data' evs :
  Stream.is_running sh = true →
  Stream.loop_body sh bytes_data io = Ok (sh', bytes_data', evs) →
  Stream.exec (Stream.Ingest :: Stream.Ingest :: rest)
    {| Stream.self := sh;
       Stream.thread := {| Stream.at_pc := Stream.LoopHead;
                           Stream.bytes_data := bytes_data;
                           Stream.stream := io :: s |} |}
  = ((Stream.exec rest
        {| Stream.self := sh';
           Stream.thread := {| Stream.at_pc := Stream.LoopHead;
                               Stream.bytes_data := bytes_data';
                               Stream.stream := s |} |}).1,
     evs ++ (Stream.exec rest
               {| Stream.self := sh';
                  Stream.thread := {| Stream.at_pc := Stream.LoopHead;
                                      Stream.bytes_data := bytes_data';
                                      Stream.stream := s |} |}).2).
Proof.
  intros Hrun Hbody.
  cbn [Stream.exec Stream.step]. unfold Stream.ingest_step at 1. simpl.
  rewrite Hrun. unfold Stream.ingest_step at 1. simpl. rewrite Hbody.
  by destruct (Stream.exec rest _).
Qed.

(** Left alone with the flag up, the ingestion thread cuts out of a
    Stream.benign stream exactly the images [demux_run] cuts out of its chunks,
    and ends with the same accumulator. *)
Lemma ingest_alone_demux s : ∀ sh bytes_data,
  Forall Stream.benign s →
  Stream.is_running sh = true →
  Stream.frames_of
    (Stream.exec (repeat Stream.Ingest (2 * length s))
       {| Stream.self := sh;
          Stream.thread := {| Stream.at_pc := Stream.LoopHead;
                              Stream.bytes_data := bytes_data;
                              Stream.stream := s |} |}).2
  = (Demux.demux_run bytes_data (map Stream.chunk s)).1
  ∧ Stream.bytes_data
      (Stream.thread
         (Stream.exec (repeat Stream.Ingest (2 * length s))
            {| Stream.self := sh;
               Stream.thread := {| Stream.at_pc := Stream.LoopHead;
                                   Stream.bytes_data := bytes_data;
                                   Stream.stream := s |} |}).1)
    = (Demux.demux_run bytes_data (map Stream.chunk s)).2.
Proof.
  induction s as [|io s IH]; intros sh bytes_data Hs Hrun.
  - done.
  - apply Forall_cons in Hs as [Hio Hs].
    replace (2 * length (io :: s))%nat with (S (S (2 * length s))) by (simpl; lia).
    cbn [repeat map Demux.demux_run].
    destruct (loop_body_benign sh bytes_data io Hio) as (sh' & evs & Hbody & Hrun' & Hfr).
    rewrite (ingest_one_chunk _ _ _ _ _ _ _ _ Hrun Hbody).
    rewrite Hrun in Hrun'.
    destruct (IH sh' (Demux.demux_step bytes_data (Stream.chunk io)).1 Hs Hrun')
      as [Hfr' Hb].
    destruct (Demux.demux_step bytes_data (Stream.chunk io)) as [b jpg]. simpl in *.
    destruct (Demux.demux_run b (map Stream.chunk s)) as [frames final]. simpl in *.
    split; [|done].
    unfold Stream.frames_of in *. rewrite omap_app, Hfr, Hfr'. by destruct jpg.
Qed.

(** ** The cool-down gate *)

Lemma Qltb_lt (a b : Q) : Qltb a b = true ↔ (a < b)%Q.
Proof.
  unfold Qltb. rewrite negb_true_iff. split.
  - intros H. apply Qnot_le_lt. intros Hle. apply Qle_bool_iff in Hle. congruence.
  - intros H. destruct (Qle_bool b a) eqn:E; [|done].
    apply Qle_bool_iff in E. exfalso. by apply (Qlt_not_le _ _ H).
Qed.

Lemma string_eqb_false (s t : string) : String.eqb s t = false ↔ s ≠ t.
Proof. apply String.eqb_neq. Qed.

Lemma fires_iff st gesture now :
  Dispatcher.fires st gesture now = true
  ↔ gesture ≠ "None"
    ∧ (Dispatcher.gesture_cooldown st < now - Dispatcher.last_gesture_time st)%Q.
Proof.
  unfold Dispatcher.fires.
  rewrite andb_true_iff, negb_true_iff, string_eqb_false, Qltb_lt. done.
Qed.

Lemma on_gesture_cooldown st gesture now :
  Dispatcher.gesture_cooldown (Dispatcher.on_gesture st gesture now).1
  = Dispatcher.gesture_cooldown st.
Proof. unfold Dispatcher.on_gesture. by destruct (Dispatcher.fires _ _ _). Qed.

(** Every firing of a run lies more than the cool-down after the last
    firing before the run, and the firings are more than the cool-down
    apart from each other. *)
Lemma run_separated frames : ∀ st,
  (0 < Dispatcher.gesture_cooldown st)%Q →
  Forall (λ e, (Dispatcher.gesture_cooldown st
                < e.2 - Dispatcher.last_gesture_time st)%Q)
         (Dispatcher.run st frames)
  ∧ StronglySorted (λ e1 e2, (Dispatcher.gesture_cooldown st < e2.2 - e1.2)%Q)
      (Dispatcher.run st frames).
Proof.
  induction frames as [|[gesture now] frames IH]; intros st Hc.
  - simpl. split; constructor.
  - cbn [Dispatcher.run]. unfold Dispatcher.on_gesture.
    destruct (Dispatcher.fires st gesture now) eqn:E; [|by apply IH].
    apply fires_iff in E as [_ Hlt].
    destruct (IH {| Dispatcher.last_gesture_time := now;
                    Dispatcher.gesture_cooldown := Dispatcher.gesture_cooldown st;
                    Dispatcher.current_gesture := gesture |} Hc) as [Hall Hs].
    simpl in *. split.
    + constructor; [done|].
      eapply Forall_impl; [exact Hall|]. intros e He. simpl in He. lra.
    + by constructor.
Qed.

Lemma StronglySorted_lookup {A} (R : A → A → Prop) (l : list A) i j a b :
  StronglySorted R l → (i < j)%nat → l !! i = Some a → l !! j = Some b → R a b.
Proof.
  intros Hs. revert i j. induction Hs as [|x l Hs IH Hall]; intros i j Hij Hi Hj.
  - done.
  - destruct j as [|j]; [lia|]. simpl in Hj. destruct i as [|i].
    + simpl in Hi. injection Hi as <-.
      rewrite List.Forall_forall in Hall. apply Hall.
      apply list_elem_of_In. by eapply list_elem_of_lookup_2.
    + simpl in Hi. apply (IH i j); [lia|done|done].
Qed.

(** C1 (corrected): the gate is strict. With a positive cool-down [c],
    any two firings of a run are more than [c] apart, so no window of
    length [c] holds two; and after a firing at [t1] a gesture other
    than "None" seen at [t2 > t1] fires exactly when [t2 - t1 > c]. *)
Theorem cooldown_gate_is_strict (st : Dispatcher.gesture_state)
  (frames : list (string * Q)) (g1 g2 : string) (t1 t2 : Q) :
  (0 < Dispatcher.gesture_cooldown st)%Q →
  (∀ (i j : nat) (e1 e2 : string * Q),
      (i < j)%nat →
      Dispatcher.run st frames !! i = Some e1 →
      Dispatcher.run st frames !! j = Some e2 →
      (Dispatcher.gesture_cooldown st < e2.2 - e1.2)%Q)
  ∧ (g2 ≠ "None" → (t1 < t2)%Q →
     Dispatcher.fires st g1 t1 = true →
     (Dispatcher.fires (Dispatcher.on_gesture st g1 t1).1 g2 t2 = true
      ↔ (Dispatcher.gesture_cooldown st < t2 - t1)%Q)).
Proof.
  intros Hc. split.
  - intros i j e1 e2 Hij H1 H2.
    destruct (run_separated frames st Hc) as [_ Hs].
    by apply (StronglySorted_lookup _ _ i j e1 e2 Hs).
  - intros Hg2 Ht Hf. rewrite fires_iff, on_gesture_cooldown.
    unfold Dispatcher.on_gesture. rewrite Hf. simpl. tauto.
Qed.

Lemma cooldown_gate_is_strict_witness :
  Dispatcher.run Dispatcher.initial
    [("fist", 2%Q); ("fist", 2.5%Q); ("peace", 3%Q); ("peace", 3.5%Q)]
  = [("fist", 2%Q); ("peace", 3.5%Q)]
  ∧ (Dispatcher.fires (Dispatcher.on_gesture Dispatcher.initial "fist" 2).1 "peace" 3.5
     = true ↔ (1 < 3.5 - 2)%Q).
Proof.
  split; [reflexivity|].
  apply (cooldown_gate_is_strict Dispatcher.initial [] "fist" "peace" 2 3.5);
    [reflexivity | discriminate | reflexivity | reflexivity].
Defined.

(** C1, counterexample: with a cool-down of one second and a firing at
    [t1 = 2], the gesture seen at [t2 = 3] does not fire although
    [t2 - t1 >= c]. *)
Lemma cooldown_boundary_does_not_fire :
  Dispatcher.on_gesture Dispatcher.initial "fist" 2
  = ({| Dispatcher.last_gesture_time := 2;
        Dispatcher.gesture_cooldown := 1;
        Dispatcher.current_gesture := "fist" |}, Some "fist")
  ∧ Dispatcher.fires (Dispatcher.on_gesture Dispatcher.initial "fist" 2).1 "fist" 3
    = false
  ∧ (1 <= 3 - 2)%Q.
Proof. split; [reflexivity | split; [reflexivity | by vm_compute]]. Qed.

(** ** Stopping the stream *)

Lemma dispatches_app evs1 evs2 :
  Stream.dispatches (evs1 ++ evs2)
  = (Stream.dispatches evs1 + Stream.dispatches evs2)%nat.
Proof. unfold Stream.dispatches. by rewrite List.filter_app, length_app. Qed.

(** One pass of the loop body keeps the flag and starts at most one
    action thread. *)
Lemma loop_body_dispatches sh bytes_data io sh' bytes_data' evs :
  Stream.loop_body sh bytes_data io = Ok (sh', bytes_data', evs) →
  Stream.is_running sh' = Stream.is_running sh
  ∧ (Stream.dispatches evs ≤ 1)%nat.
Proof.
  unfold Stream.loop_body.
  destruct (Demux.demux_step bytes_data (Stream.chunk io)) as [b [jpg|]].
  - destruct (Stream.decodable io); simpl; [|done].
    destruct (Stream.first_hand_gesture _) as [gesture|]; simpl; [|done].
    destruct (Dispatcher.on_gesture _ gesture _) as [gs [g|]];
      intros [= <- <- <-]; unfold Stream.dispatches; simpl; split; (done || lia).
  - intros [= <- <- <-]. unfold Stream.dispatches. simpl. split; (done || lia).
Qed.

Lemma stopped_dispatches schedule : ∀ c,
  Stream.is_running (Stream.self c) = false →
  (Stream.dispatches (Stream.exec schedule c).2 ≤ Stream.budget c)%nat.
Proof.
  induction schedule as [|a schedule IH]; intros c Hstop.
  - simpl. unfold Stream.dispatches. simpl. lia.
  - cbn [Stream.exec].
    destruct (Stream.step a c) as [c1 evs1] eqn:Hstep.
    assert (Stream.is_running (Stream.self c1) = false
            ∧ (Stream.dispatches evs1 + Stream.budget c1 ≤ Stream.budget c)%nat) as [Hstop1 Hb].
    { destruct a; simpl in Hstep.
      - unfold Stream.ingest_step, Stream.budget in *.
        destruct c as [sh [p b s]]. simpl in *. destruct p as [|io|].
        + destruct s as [|io rest]; [|rewrite Hstop in Hstep];
            injection Hstep as <- <-; simpl; split; (done || lia).
        + destruct (Stream.loop_body sh b io) as [[[sh' b'] evs]|e] eqn:Hbody.
          * apply loop_body_dispatches in Hbody as [Hr Hd].
            injection Hstep as <- <-. simpl. split; [congruence | lia].
          * injection Hstep as <- <-. simpl. split; [done | ].
            unfold Stream.dispatches. simpl. lia.
        + injection Hstep as <- <-. simpl. split; (done || lia).
      - unfold Stream.stop_stream in Hstep. injection Hstep as <- <-.
        unfold Stream.budget. simpl. split; [done|].
        destruct (Stream.at_pc _); unfold Stream.dispatches; simpl; lia.
      - unfold Stream.update_display in Hstep. rewrite Hstop in Hstep.
        injection Hstep as <- <-. split; [done|].
        unfold Stream.dispatches. simpl. lia. }
    specialize (IH c1 Hstop1).
    destruct (Stream.exec schedule c1) as [c2 evs2]. simpl in *.
    rewrite dispatches_app. lia.
Qed.

(** C3 (corrected): once [stop_stream] has returned, the ingestion
    thread starts at most one more action thread, whatever the
    interleaving: none if it stood at the head of the loop when the flag
    was cleared, at most one if it had already passed the [is_running]
    test for the chunk in hand. *)
Theorem at_most_one_dispatch_after_stop (before after : list Stream.actor)
  (c : Stream.config) :
  (Stream.dispatches
     (Stream.exec after (Stream.stop_stream (Stream.exec before c).1).1).2
   ≤ Stream.budget (Stream.exec before c).1)%nat
  ∧ (Stream.budget (Stream.exec before c).1 ≤ 1)%nat.
Proof.
  split.
  - etrans; [apply stopped_dispatches; reflexivity|].
    unfold Stream.budget, Stream.stop_stream. simpl. done.
  - unfold Stream.budget. destruct (Stream.at_pc _); lia.
Qed.

(** C3, counterexample: the ingestion thread passes the test of
    [is_running], then [stop_stream] runs and returns, then the thread
    finishes its pass and starts the action thread of the gesture. *)
Lemma dispatch_after_stop_returned :
  (Stream.exec [Stream.Ingest; Stream.Stop; Stream.Ingest]
     (Stream.started Dispatcher.initial one_fist_frame)).2
  = [Stream.EvStopReturned;
     Stream.EvFrame [xff; xd8; x01; xff; xd9];
     Stream.EvDispatch "fist"].
Proof. reflexivity. Qed.

(** ** The display channel *)

Lemma send_unavailable c message network :
  DisplayChannel.display_available c = false →
  DisplayChannel.send_to_esp32_display c message network
  = (DisplayChannel.add_log c DisplayChannel.LogDisplayNotAvailable, None).
Proof. intros H. unfold DisplayChannel.send_to_esp32_display. by rewrite H. Qed.

Lemma send_available c message network :
  DisplayChannel.display_available c = true →
  ∃ req, (DisplayChannel.send_to_esp32_display c message network).2 = Some req
         ∧ DisplayChannel.display_available
             (DisplayChannel.send_to_esp32_display c message network).1
           = match network req with
             | DisplayChannel.Raised => false
             | DisplayChannel.Returned _ => true
             end.
Proof.
  intros H. unfold DisplayChannel.send_to_esp32_display. rewrite H. simpl.
  destruct (String.eqb _ "HTTP").
  - eexists. split.
    + destruct (network _) as [status|]; [destruct (status =? 200)|]; reflexivity.
    + destruct (network _) as [status|]; [destruct (status =? 200)|]; simpl; done.
  - eexists. split.
    + destruct (network _); reflexivity.
    + destruct (network _); simpl; done.
Qed.

Lemma run_unavailable ops : ∀ c,
  DisplayChannel.display_available c = false →
  (DisplayChannel.run c ops).2 = []
  ∧ DisplayChannel.display_available (DisplayChannel.run c ops).1 = false.
Proof.
  induction ops as [|[message network|ip sp wp|v] ops IH]; intros c H.
  - done.
  - cbn [DisplayChannel.run]. rewrite send_unavailable by done.
    destruct (IH (DisplayChannel.add_log c DisplayChannel.LogDisplayNotAvailable) H)
      as [H1 H2].
    destruct (DisplayChannel.run _ ops) as [c2 reqs]. simpl in *. by subst.
  - cbn [DisplayChannel.run]. by apply IH.
  - cbn [DisplayChannel.run]. by apply IH.
Qed.

(** C2 (corrected): a send on an available channel makes one network
    call, and the flag turns false exactly when that call raises; a
    status code other than 200 is logged and leaves the flag as it was.
    While the flag is false a send makes no network call.
    [update_esp32_settings] does not touch the flag, and no run of
    sends, settings updates and transport selections makes a channel
    with a false flag call the network or turns the flag back to true. *)
Theorem display_breaker_never_resets (c : DisplayChannel.channel)
  (message ip sp wp : string)
  (network : DisplayChannel.request → DisplayChannel.outcome)
  (ops : list DisplayChannel.op) :
  (DisplayChannel.display_available c = true →
   ∃ req, (DisplayChannel.send_to_esp32_display c message network).2 = Some req
          ∧ DisplayChannel.display_available
              (DisplayChannel.send_to_esp32_display c message network).1
            = match network req with
              | DisplayChannel.Raised => false
              | DisplayChannel.Returned _ => true
              end)
  ∧ (DisplayChannel.display_available c = false →
     DisplayChannel.send_to_esp32_display c message network
     = (DisplayChannel.add_log c DisplayChannel.LogDisplayNotAvailable, None))
  ∧ DisplayChannel.display_available
      (DisplayChannel.update_esp32_settings c ip sp wp)
    = DisplayChannel.display_available c
  ∧ (DisplayChannel.display_available c = false →
     (DisplayChannel.run c ops).2 = []
     ∧ DisplayChannel.display_available (DisplayChannel.run c ops).1 = false).
Proof.
  split; [apply send_available|]. split; [apply send_unavailable|].
  split; [done|]. apply run_unavailable.
Qed.

Lemma display_breaker_never_resets_witness :
  DisplayChannel.display_available tripped = false
  ∧ (DisplayChannel.run tripped
       [DisplayChannel.UpdateSettings "192.168.1.50" "80" "81";
        DisplayChannel.Send "hello" (answers 200)]).2 = []
  ∧ DisplayChannel.display_available
      (DisplayChannel.run tripped
         [DisplayChannel.UpdateSettings "192.168.1.50" "80" "81";
          DisplayChannel.Send "hello" (answers 200)]).1 = false.
Proof.
  split; [reflexivity|].
  apply (display_breaker_never_resets tripped "" "" "" "" unreachable
           [DisplayChannel.UpdateSettings "192.168.1.50" "80" "81";
            DisplayChannel.Send "hello" (answers 200)]).
  reflexivity.
Defined.

(** C2, counterexample: over HTTP a reply with status 500 leaves the
    channel available; and after a failed send the user's settings update
    does not make the channel available again, so the next send still
    makes no network call. *)
Lemma http_error_status_keeps_channel_available :
  DisplayChannel.send_to_esp32_display
    (DisplayChannel.run DisplayChannel.initial [DisplayChannel.SelectMethod "HTTP"]).1
    "Listening..." (answers 500)
  = ({| DisplayChannel.esp32_ip := "192.168.1.42";
        DisplayChannel.esp32_stream_port := "80";
        DisplayChannel.esp32_ws_port := "81";
        DisplayChannel.display_method := "WebSocket";
        DisplayChannel.display_method_var := Some "HTTP";
        DisplayChannel.display_available := true;
        DisplayChannel.log :=
          [DisplayChannel.LogSending "HTTP" "Listening...";
           DisplayChannel.LogHttpError 500] |},
     Some (DisplayChannel.HttpPost "http://192.168.1.42:80/display" "Listening..."))
  ∧ DisplayChannel.display_available tripped = false
  ∧ DisplayChannel.display_available
      (DisplayChannel.update_esp32_settings tripped "192.168.1.50" "80" "81")
    = false
  ∧ (DisplayChannel.send_to_esp32_display
       (DisplayChannel.update_esp32_settings tripped "192.168.1.50" "80" "81")
       "hello" (answers 200)).2 = None.
Proof. repeat split; reflexivity. Qed.

(** ** The registry *)

Lemma fresh_not_default (h : gmap Registry.loc (gmap string Registry.json)) d0 :
  h !! Registry.DEFAULT_LOC = Some d0 →
  (fresh (dom h) ∉ dom h) ∧ fresh (dom h) ≠ Registry.DEFAULT_LOC.
Proof.
  intros H. pose proof (is_fresh (dom h)) as Hf. split; [done|].
  intros Heq. apply Hf. rewrite Heq. apply elem_of_dom. eauto.
Qed.

(** The loop over the default keys, on a dictionary: the entries it finds
    stay, the missing ones are added. *)
Lemma add_missing_dict defaults :
  ∀ (h : gmap Registry.loc (gmap string Registry.json)) l d,
  h !! l = Some d →
  Registry.add_missing h (Registry.RefDict l) defaults
  = Ok (<[l := d ∪ list_to_map defaults]> h).
Proof.
  induction defaults as [|[k v] defaults IH]; intros h l d Hl.
  - simpl. rewrite (right_id_L ∅ (∪)). by rewrite insert_id.
  - cbn [Registry.add_missing Registry.py_contains]. rewrite Hl. simpl.
    destruct (d !! k) as [w|] eqn:Hk.
    + rewrite bool_decide_eq_true_2 by eauto. simpl.
      rewrite (IH h l d Hl). do 2 f_equal.
      apply map_eq. intros i. rewrite !lookup_union.
      destruct (decide (i = k)) as [->|Hne].
      * rewrite Hk. by destruct (list_to_map defaults !! k), (<[k:=v]> _ !! k).
      * by rewrite lookup_insert_ne.
    + rewrite bool_decide_eq_false_2 by (intros [? ?]; congruence). simpl.
      rewrite Hl. simpl.
      rewrite (IH _ l (<[k:=v]> d)) by apply lookup_insert_eq.
      rewrite insert_insert_eq. do 2 f_equal.
      rewrite <- insert_union_l. by rewrite insert_union_r.
Qed.

Lemma load_object members (h : gmap Registry.loc (gmap string Registry.json)) d0 :
  h !! Registry.DEFAULT_LOC = Some d0 →
  Registry.load_gesture_config (Registry.Holds (Registry.JObj members)) h
  = (Registry.RefDict (fresh (dom h)),
     <[fresh (dom h) := Registry.dict_of_members members ∪ d0]> h).
Proof.
  intros H. destruct (fresh_not_default h d0 H) as [Hf Hne].
  unfold Registry.load_gesture_config, Registry.try_load, Registry.alloc. simpl.
  rewrite lookup_insert_ne by done. rewrite H. simpl.
  rewrite (add_missing_dict _ _ _ (Registry.dict_of_members members))
    by apply lookup_insert_eq.
  simpl. by rewrite insert_insert_eq, list_to_map_to_list.
Qed.

(** C7 (corrected): loading a persisted mapping yields a new dictionary
    that is the persisted mapping laid over the defaults: every persisted
    pair is kept, whether or not its key is a known gesture, and every
    default key the file lacks is added with its default action. The
    defaults themselves are left as they were. *)
Theorem load_merges_over_defaults (members : list (string * Registry.json))
  (h : gmap Registry.loc (gmap string Registry.json))
  (d0 : gmap string Registry.json) :
  h !! Registry.DEFAULT_LOC = Some d0 →
  ∃ l cfg,
    (Registry.load_gesture_config (Registry.Holds (Registry.JObj members)) h).1
    = Registry.RefDict l
    ∧ (Registry.load_gesture_config (Registry.Holds (Registry.JObj members)) h).2 !! l
      = Some cfg
    ∧ (∀ k v, Registry.dict_of_members members !! k = Some v → cfg !! k = Some v)
    ∧ (∀ k, Registry.dict_of_members members !! k = None → cfg !! k = d0 !! k)
    ∧ (Registry.load_gesture_config (Registry.Holds (Registry.JObj members)) h).2
        !! Registry.DEFAULT_LOC
      = Some d0.
Proof.
  intros H. destruct (fresh_not_default h d0 H) as [Hf Hne].
  rewrite (load_object members h d0 H). simpl.
  exists (fresh (dom h)), (Registry.dict_of_members members ∪ d0).
  split; [done|]. split; [apply lookup_insert_eq|].
  split; [|split].
  - intros k v Hk. by apply lookup_union_Some_l.
  - intros k Hk. by apply lookup_union_r.
  - by rewrite lookup_insert_ne.
Qed.

Lemma load_merges_over_defaults_witness :
  ∃ l cfg,
    (Registry.load_gesture_config persisted_wave Registry.module_heap).1
    = Registry.RefDict l
    ∧ (Registry.load_gesture_config persisted_wave Registry.module_heap).2 !! l
      = Some cfg
    ∧ (∀ k v, Registry.dict_of_members
                [("wave", Registry.JStr "translate"); ("fist", Registry.JStr "repeat")]
              !! k = Some v → cfg !! k = Some v)
    ∧ (∀ k, Registry.dict_of_members
              [("wave", Registry.JStr "translate"); ("fist", Registry.JStr "repeat")]
            !! k = None → cfg !! k = Registry.DEFAULT_GESTURE_ACTIONS !! k)
    ∧ (Registry.load_gesture_config persisted_wave Registry.module_heap).2
        !! Registry.DEFAULT_LOC
      = Some Registry.DEFAULT_GESTURE_ACTIONS.
Proof.
  apply (load_merges_over_defaults
           [("wave", Registry.JStr "translate"); ("fist", Registry.JStr "repeat")]
           Registry.module_heap Registry.DEFAULT_GESTURE_ACTIONS).
  reflexivity.
Defined.

(** C7, counterexample: a persisted key that is no gesture, "wave",
    is in the loaded registry with its persisted action. *)
Lemma load_keeps_unknown_keys :
  Registry.DEFAULT_GESTURE_ACTIONS !! "wave" = None
  ∧ loaded_action persisted_wave "wave" = Some (Registry.JStr "translate")
  ∧ loaded_action persisted_wave "fist" = Some (Registry.JStr "repeat")
  ∧ loaded_action persisted_wave "peace" = Some (Registry.JStr "repeat").
Proof. repeat split; by vm_compute. Qed.

(** C10: when the configuration file is absent, unreadable or malformed,
    [load_gesture_config] returns (it has no way to raise: the handler
    catches every exception of the [try]) a reference to a new dictionary
    equal to the defaults. The new dictionary is not the defaults' own
    object, and the heap is otherwise unchanged: the defaults are neither
    aliased nor written. *)
Theorem load_falls_back_to_fresh_defaults (file : Registry.file_state)
  (h : gmap Registry.loc (gmap string Registry.json))
  (d0 : gmap string Registry.json) :
  file = Registry.Absent ∨ file = Registry.Unreadable ∨ file = Registry.Malformed →
  h !! Registry.DEFAULT_LOC = Some d0 →
  ∃ l, Registry.load_gesture_config file h = (Registry.RefDict l, <[l := d0]> h)
       ∧ (l ∉ dom h)
       ∧ l ≠ Registry.DEFAULT_LOC
       ∧ (<[l := d0]> h) !! Registry.DEFAULT_LOC = Some d0
       ∧ (∀ l', l' ≠ l → (<[l := d0]> h) !! l' = h !! l').
Proof.
  intros Hfile H. destruct (fresh_not_default h d0 H) as [Hf Hne].
  exists (fresh (dom h)). split.
  - unfold Registry.load_gesture_config, Registry.py_copy, Registry.alloc.
    rewrite H. by destruct Hfile as [->|[->| ->]].
  - split; [done|]. split; [done|]. split.
    + by rewrite lookup_insert_ne.
    + intros l' Hl'. by rewrite lookup_insert_ne.
Qed.

Lemma load_falls_back_to_fresh_defaults_witness :
  ∃ l, Registry.load_gesture_config Registry.Malformed Registry.module_heap
       = (Registry.RefDict l, <[l := Registry.DEFAULT_GESTURE_ACTIONS]> Registry.module_heap)
       ∧ (l ∉ dom Registry.module_heap)
       ∧ l ≠ Registry.DEFAULT_LOC
       ∧ (<[l := Registry.DEFAULT_GESTURE_ACTIONS]> Registry.module_heap)
           !! Registry.DEFAULT_LOC = Some Registry.DEFAULT_GESTURE_ACTIONS
       ∧ (∀ l', l' ≠ l →
            (<[l := Registry.DEFAULT_GESTURE_ACTIONS]> Registry.module_heap) !! l'
            = Registry.module_heap !! l').
Proof.
  apply (load_falls_back_to_fresh_defaults Registry.Malformed Registry.module_heap
           Registry.DEFAULT_GESTURE_ACTIONS).
  - right. right. reflexivity.
  - reflexivity.
Defined.

(** C4 (corrected): [update_gesture_mapping] checks nothing. For every
    gesture key and every action string, in the fixed sets or not, it
    succeeds and stores the pair in the registry's dictionary, leaving
    the other keys as they were, and then saves. *)
Theorem update_gesture_mapping_assigns (r : Registry.registry)
  (gesture action : string) (writable : bool) (l : Registry.loc)
  (d : gmap string Registry.json) :
  Registry.gesture_actions r = Registry.RefDict l →
  Registry.objects r !! l = Some d →
  ∃ r', Registry.update_gesture_mapping r gesture action writable = Ok r'
        ∧ Registry.gesture_actions r' = Registry.RefDict l
        ∧ Registry.objects r' !! l = Some (<[gesture := Registry.JStr action]> d)
        ∧ Registry.action_of r' gesture = Registry.JStr action
        ∧ (∀ g, g ≠ gesture → Registry.action_of r' g = Registry.action_of r g)
        ∧ (writable = true →
           Registry.config_file r'
           = Registry.Holds
               (Registry.JObj (map_to_list (<[gesture := Registry.JStr action]> d)))).
Proof.
  intros Href Hd. unfold Registry.update_gesture_mapping, Registry.py_setitem.
  rewrite Href, Hd. simpl. eexists. split; [done|].
  unfold Registry.save_gesture_config, Registry.action_of.
  destruct writable; simpl; rewrite ?Href; simpl; rewrite ?lookup_insert_eq; simpl;
    rewrite ?lookup_insert_eq; simpl.
  - repeat split; try done. intros g Hg. by rewrite Hd, lookup_insert_ne.
  - repeat split; try done. intros g Hg. by rewrite Hd, lookup_insert_ne.
Qed.

Lemma update_gesture_mapping_assigns_witness :
  ∃ r', Registry.update_gesture_mapping fresh_registry "fist" "repeat" true = Ok r'
        ∧ Registry.gesture_actions r' = Registry.RefDict 1%nat
        ∧ Registry.objects r' !! 1%nat
          = Some (<["fist" := Registry.JStr "repeat"]> Registry.DEFAULT_GESTURE_ACTIONS)
        ∧ Registry.action_of r' "fist" = Registry.JStr "repeat"
        ∧ (∀ g, g ≠ "fist" →
                Registry.action_of r' g = Registry.action_of fresh_registry g)
        ∧ (true = true →
           Registry.config_file r'
           = Registry.Holds
               (Registry.JObj
                  (map_to_list
                     (<["fist" := Registry.JStr "repeat"]>
                        Registry.DEFAULT_GESTURE_ACTIONS)))).
Proof.
  apply (update_gesture_mapping_assigns fresh_registry "fist" "repeat" true 1%nat
           Registry.DEFAULT_GESTURE_ACTIONS).
  - reflexivity.
  - reflexivity.
Defined.

(** C4, counterexample: an action outside [AVAILABLE_ACTIONS] is
    accepted and replaces the action of "fist"; a key that is no gesture
    is accepted and added. *)
Lemma unknown_action_is_stored :
  existsb (String.eqb "explode") Registry.AVAILABLE_ACTIONS = false
  ∧ Registry.action_of fresh_registry "fist" = Registry.JStr "stop"
  ∧ (r ← Registry.update_gesture_mapping fresh_registry "fist" "explode" true;
     mret (Registry.action_of r "fist")) = Ok (Registry.JStr "explode")
  ∧ Registry.DEFAULT_GESTURE_ACTIONS !! "wave" = None
  ∧ (r ← Registry.update_gesture_mapping fresh_registry "wave" "translate" true;
     mret (Registry.action_of r "wave")) = Ok (Registry.JStr "translate").
Proof. repeat split; by vm_compute. Qed.

(** * Further properties *)

(** ** More on [find]: what the index found means *)

Lemma find_from_shift sub l i :
  Bytes.find_from sub l i = (λ k, (k + i)%nat) <$> Bytes.find_from sub l 0.
Proof.
  revert i. induction l as [|a l IH]; intros i; simpl.
  - by destruct (Bytes.is_prefix sub []).
  - destruct (Bytes.is_prefix sub (a :: l)); [done|].
    rewrite (IH (S i)), (IH 1%nat).
    destruct (Bytes.find_from sub l 0); simpl; [f_equal; lia | done].
Qed.

(** [find] returns the first position at which the pattern occurs. *)
Lemma find_from_first sub l k :
  Bytes.find_from sub l 0 = Some k →
  Bytes.is_prefix sub (drop k l) = true
  ∧ ∀ j, (j < k)%nat → Bytes.is_prefix sub (drop j l) = false.
Proof.
  revert k. induction l as [|a l IH]; intros k; simpl.
  - destruct (Bytes.is_prefix sub []) eqn:E; [|done].
    intros [= <-]. split; [done | lia].
  - destruct (Bytes.is_prefix sub (a :: l)) eqn:E.
    + intros [= <-]. split; [done | lia].
    + rewrite find_from_shift.
      destruct (Bytes.find_from sub l 0) as [k'|] eqn:E'; [|done].
      simpl. intros [= <-]. destruct (IH k' eq_refl) as [H1 H2].
      replace (k' + 1)%nat with (S k') by lia. split; [done|].
      intros [|j] Hj; [done|]. simpl. apply H2. lia.
Qed.

Lemma find_from_is_first sub l k :
  Bytes.is_prefix sub (drop k l) = true →
  (k ≤ length l)%nat →
  (∀ j, (j < k)%nat → Bytes.is_prefix sub (drop j l) = false) →
  Bytes.find_from sub l 0 = Some k.
Proof.
  revert k. induction l as [|a l IH]; intros k Hk Hlen Hmin.
  - simpl in Hlen. assert (k = 0)%nat as -> by lia. simpl in *. by rewrite Hk.
  - destruct k as [|k].
    + simpl in *. by rewrite Hk.
    + cbn [Bytes.find_from].
      pose proof (Hmin 0%nat ltac:(lia)) as H0. simpl in H0. rewrite H0.
      rewrite find_from_shift, (IH k); simpl in *; [f_equal; lia | done | lia |].
      intros j Hj. apply (Hmin (S j)). lia.
Qed.

Lemma is_prefix_take sub l n :
  Bytes.is_prefix sub l = true → (length sub ≤ n)%nat →
  Bytes.is_prefix sub (take n l) = true.
Proof.
  revert l n. induction sub as [|a sub IH]; intros [|b l] [|n]; simpl; try done; try lia.
  intros [-> H]%andb_prop Hn. simpl. apply IH; [done | lia].
Qed.

Lemma is_prefix_of_take sub l n :
  Bytes.is_prefix sub (take n l) = true → Bytes.is_prefix sub l = true.
Proof.
  intros H. rewrite <- (take_drop n l). by apply is_prefix_app_true.
Qed.

(** Text holds no marker, and a marker search skips over leading text. *)
Lemma find_from_skip_text hdr l p sub i :
  Multipart.text hdr = true →
  Bytes.find_from (xff :: p :: sub) (hdr ++ l) i
  = Bytes.find_from (xff :: p :: sub) l (i + length hdr).
Proof.
  revert i. induction hdr as [|b hdr IH]; intros i Ht.
  - simpl. f_equal. lia.
  - simpl in Ht. apply andb_prop in Ht as [Hb Ht].
    cbn [app Bytes.find_from].
    assert (Bytes.is_prefix (xff :: p :: sub) (b :: hdr ++ l) = false) as ->.
    { simpl. apply andb_false_iff. left. by destruct b. }
    rewrite IH by done. f_equal. simpl. lia.
Qed.

Lemma is_prefix_two p q l :
  Bytes.is_prefix [p; q] l = true → ∃ t, l = p :: q :: t.
Proof.
  destruct l as [|x [|y t]]; simpl; try done.
  - by rewrite andb_false_r.
  - intros [Hx [Hy _]%andb_prop]%andb_prop. exists t.
    apply Byte.byte_dec_bl in Hx, Hy. by subst.
Qed.

(** What a successful [find] of a two-byte marker tells, as positions. *)
Lemma find_marker l p q k :
  Bytes.find l [p; q] = Z.of_nat k →
  (k + 2 ≤ length l)%nat
  ∧ (∃ t, drop k l = p :: q :: t)
  ∧ ∀ j, (j < k)%nat → Bytes.is_prefix [p; q] (drop j l) = false.
Proof.
  intros H%find_found. pose proof (find_from_bounds _ _ _ _ H) as [_ Hb].
  apply find_from_first in H as [H1 H2]. simpl in Hb.
  split; [lia|]. split; [by apply is_prefix_two | done].
Qed.

Lemma find_cases l sub :
  Bytes.find l sub = -1 ∨ ∃ k : nat, Bytes.find l sub = Z.of_nat k.
Proof.
  unfold Bytes.find. destruct (Bytes.find_from sub l 0) as [k|]; [right; by exists k | by left].
Qed.

(** The image cut out between a start marker and a later end marker is
    well delimited. *)
Lemma cut_is_well_delimited l (a b : nat) :
  Bytes.find l Demux.SOI = Z.of_nat a →
  Bytes.find l Demux.EOI = Z.of_nat b →
  (a < b)%nat →
  Demux.well_delimited (take (b + 2 - a) (drop a l)) = true.
Proof.
  intros (Ha & [ta Hta] & _)%find_marker (Hb & [tb Htb] & Hmin)%find_marker Hab.
  assert (length (take (b + 2 - a) (drop a l)) = b + 2 - a)%nat as Hlen.
  { rewrite length_take, length_drop. lia. }
  unfold Demux.well_delimited. apply andb_true_iff. split; apply Z.eqb_eq.
  - unfold Bytes.find. rewrite (find_from_is_first _ _ 0); [done | | lia | lia].
    rewrite drop_0. apply is_prefix_take; [|simpl; lia]. by rewrite Hta.
  - assert (∀ j, (j ≤ b + 2 - a)%nat →
              drop j (take (b + 2 - a) (drop a l))
              = take (b + 2 - a - j) (drop (a + j) l)) as Hdrop.
    { intros j Hj. rewrite <- drop_drop.
      rewrite (take_drop_commute (drop a l) (b + 2 - a - j) j).
      do 2 f_equal. lia. }
    unfold Bytes.find. rewrite (find_from_is_first _ _ (b - a)); [lia | | lia |].
    + rewrite Hdrop by lia. replace (a + (b - a))%nat with b by lia.
      rewrite Htb. by replace (b + 2 - a - (b - a))%nat with 2%nat by lia.
    + intros j Hj. destruct (Bytes.is_prefix _ _) eqn:E; [|done].
      rewrite Hdrop in E by lia. apply is_prefix_of_take in E.
      rewrite Hmin in E; [done | lia].
Qed.

(** The two markers cannot be found at the same place, nor the start
    marker on the second byte of the end marker. *)
Lemma markers_apart l (a b : nat) :
  Bytes.find l Demux.SOI = Z.of_nat a →
  Bytes.find l Demux.EOI = Z.of_nat b →
  (a < b)%nat ∨ (b + 2 ≤ a)%nat.
Proof.
  intros (Ha & [ta Hta] & _)%find_marker (Hb & [tb Htb] & _)%find_marker.
  destruct (decide (a = b)) as [->|Hne].
  { rewrite Hta in Htb. done. }
  destruct (decide (a = S b)) as [->|Hne'].
  { assert (drop (S b) l = drop 1 (drop b l)) as Hd by (rewrite drop_drop; f_equal; lia).
    rewrite Hta, Htb in Hd. done. }
  lia.
Qed.

(** X1: whatever [demux_step] cuts out of the accumulator is taken from
    it in place (some bytes skipped, the frame, then the new
    accumulator), and is either empty, which happens exactly when the
    first end marker lies before the first start marker, or a
    well-delimited image. *)
Theorem demux_step_cuts_well_delimited (bytes_data chunk buf jpg : list byte) :
  Demux.demux_step bytes_data chunk = (buf, Some jpg) →
  (∃ skipped, bytes_data ++ chunk = skipped ++ jpg ++ buf)
  ∧ (jpg = [] ∨ Demux.well_delimited jpg = true)
  ∧ (jpg = [] ↔ Bytes.find (bytes_data ++ chunk) Demux.EOI
                 < Bytes.find (bytes_data ++ chunk) Demux.SOI).
Proof.
  unfold Demux.demux_step.
  destruct (find_cases (bytes_data ++ chunk) Demux.SOI) as [Ha|[a Ha]];
    [by rewrite Ha|].
  destruct (find_cases (bytes_data ++ chunk) Demux.EOI) as [Hb|[b Hb]];
    [rewrite Hb; by rewrite andb_false_r|].
  rewrite Ha, Hb.
  replace (negb (Z.of_nat a =? -1) && negb (Z.of_nat b =? -1)) with true
    by (symmetry; apply andb_true_iff; split; apply negb_true_iff, Z.eqb_neq; lia).
  unfold Bytes.slice, Bytes.slice_from. intros [= <- <-].
  replace (Z.to_nat (Z.of_nat b + 2)) with (b + 2)%nat by lia. rewrite Nat2Z.id.
  pose proof (find_marker _ _ _ _ Hb) as (Hblen & _ & _).
  destruct (markers_apart _ a b Ha Hb) as [Hab|Hba].
  - assert (Demux.well_delimited (take (b + 2 - a) (drop a (bytes_data ++ chunk))) = true)
      as Hwd by by apply cut_is_well_delimited.
    split; [|split; [by right|]].
    + exists (take a (bytes_data ++ chunk)).
      rewrite <- (take_drop a (bytes_data ++ chunk)) at 1. f_equal.
      rewrite <- (take_drop (b + 2 - a) (drop a (bytes_data ++ chunk))) at 1. f_equal.
      rewrite drop_drop. f_equal. lia.
    + split; [|lia]. intros Hnil. rewrite Hnil in Hwd. done.
  - replace (b + 2 - a)%nat with 0%nat by lia. simpl.
    split; [|split; [by left|]].
    + exists (take (b + 2) (bytes_data ++ chunk)). by rewrite take_drop.
    + split; [lia | done].
Qed.

Lemma demux_step_cuts_well_delimited_witness :
  (∃ skipped, [x0d; x0a] ++ [xff; xd8; x01; xff; xd9; x0d]
              = skipped ++ [xff; xd8; x01; xff; xd9] ++ [x0d])
  ∧ ([xff; xd8; x01; xff; xd9] = []
     ∨ Demux.well_delimited [xff; xd8; x01; xff; xd9] = true)
  ∧ ([xff; xd8; x01; xff; xd9] = []
     ↔ Bytes.find ([x0d; x0a] ++ [xff; xd8; x01; xff; xd9; x0d]) Demux.EOI
       < Bytes.find ([x0d; x0a] ++ [xff; xd8; x01; xff; xd9; x0d]) Demux.SOI).
Proof.
  apply (demux_step_cuts_well_delimited [x0d; x0a] [xff; xd8; x01; xff; xd9; x0d]).
  reflexivity.
Defined.

(** ** Multipart streams *)

Lemma find_text l p sub :
  Multipart.text l = true → Bytes.find l (xff :: p :: sub) = -1.
Proof.
  intros H. unfold Bytes.find.
  rewrite <- (app_nil_r l), find_from_skip_text by done. done.
Qed.

(** The markers of an image behind a text header, whatever follows. *)
Lemma find_headed hdr img rest :
  Multipart.text hdr = true →
  Demux.well_delimited img = true →
  Bytes.find (hdr ++ img ++ rest) Demux.SOI = Z.of_nat (length hdr)
  ∧ Bytes.find (hdr ++ img ++ rest) Demux.EOI
    = Z.of_nat (length hdr + length img - 2).
Proof.
  intros Ht (Ha & Hb & Hlen)%well_delimited_find.
  apply (find_app img rest Demux.SOI 0) in Ha.
  assert (Bytes.find img Demux.EOI = Z.of_nat (length img - 2)) as Hb' by lia.
  apply (find_app img rest Demux.EOI) in Hb'.
  apply find_found in Ha, Hb'.
  unfold Bytes.find, Demux.SOI, Demux.EOI in *.
  rewrite (find_from_skip_text hdr (img ++ rest) xd8 [] 0) by done.
  rewrite (find_from_skip_text hdr (img ++ rest) xd9 [] 0) by done.
  rewrite (find_from_shift _ _ (0 + length hdr)%nat), Ha.
  rewrite (find_from_shift _ _ (0 + length hdr)%nat), Hb'. simpl. split; f_equal; lia.
Qed.

(** A whole headed image in the accumulator: the image is cut out and
    the header dropped. *)
Lemma demux_step_headed bytes_data chunk hdr img rest :
  Multipart.text hdr = true →
  Demux.well_delimited img = true →
  bytes_data ++ chunk = hdr ++ img ++ rest →
  Demux.demux_step bytes_data chunk = (rest, Some img).
Proof.
  intros Ht Hw Heq. pose proof (well_delimited_find _ Hw) as (_ & _ & Hlen).
  destruct (find_headed hdr img rest Ht Hw) as [Ha Hb].
  unfold Demux.demux_step. rewrite Heq, Ha, Hb.
  replace (negb (Z.of_nat (length hdr) =? -1)
           && negb (Z.of_nat (length hdr + length img - 2) =? -1)) with true
    by (symmetry; apply andb_true_iff; split; apply negb_true_iff, Z.eqb_neq; lia).
  unfold Bytes.slice, Bytes.slice_from. rewrite Nat2Z.id.
  replace (Z.to_nat (Z.of_nat (length hdr + length img - 2) + 2))
    with (length hdr + length img)%nat by lia.
  rewrite drop_app_length.
  replace (length hdr + length img - length hdr)%nat with (length img) by lia.
  rewrite take_app_length. f_equal.
  rewrite app_assoc. rewrite <- length_app. by rewrite drop_app_length.
Qed.

(** A proper part of a headed image: nothing is cut out. *)
Lemma demux_step_headed_partial bytes_data chunk hdr img rest :
  Multipart.text hdr = true →
  Demux.well_delimited img = true →
  bytes_data ++ chunk ++ rest = hdr ++ img →
  (length (bytes_data ++ chunk) < length hdr + length img)%nat →
  Demux.demux_step bytes_data chunk = (bytes_data ++ chunk, None).
Proof.
  intros Ht Hw Heq Hlt. apply demux_step_no_marker. right.
  destruct (find_range (bytes_data ++ chunk) Demux.EOI) as [H|[H1 H2]]; [done|].
  exfalso.
  pose proof (find_app (bytes_data ++ chunk) rest Demux.EOI
                (Z.to_nat (Bytes.find (bytes_data ++ chunk) Demux.EOI))) as H.
  rewrite Z2Nat.id in H by done. specialize (H eq_refl).
  destruct (find_headed hdr img [] Ht Hw) as [_ Hb]. rewrite app_nil_r in Hb.
  pose proof (well_delimited_find _ Hw) as (_ & _ & Hlen).
  rewrite <- app_assoc, Heq, Hb in H. simpl in H2. lia.
Qed.

Lemma text_app l1 l2 :
  Multipart.text (l1 ++ l2) = Multipart.text l1 && Multipart.text l2.
Proof. unfold Multipart.text. apply forallb_app. Qed.

Lemma stream_of_cons hdr img parts trailer :
  Multipart.stream_of ((hdr, img) :: parts) trailer
  = (hdr ++ img) ++ Multipart.stream_of parts trailer.
Proof. unfold Multipart.stream_of. simpl. by rewrite <- !app_assoc. Qed.

Lemma demux_run_parts chunks : ∀ bytes_data parts trailer,
  Forall (λ p, Multipart.text p.1 = true ∧ Demux.well_delimited p.2 = true) parts →
  Multipart.text trailer = true →
  bytes_data ++ concat chunks = Multipart.stream_of parts trailer →
  (∀ c p, c ∈ chunks → p ∈ parts → (length c ≤ length p.2)%nat) →
  match parts with
  | [] => True
  | p :: _ => (length bytes_data < length p.1 + length p.2)%nat
  end →
  Demux.demux_run bytes_data chunks = (List.map snd parts, trailer).
Proof.
  induction chunks as [|chunk chunks IH]; intros bytes_data parts trailer Hp Ht Heq Hc Hb.
  - simpl in *. rewrite app_nil_r in Heq. destruct parts as [|[hdr img] parts].
    + by rewrite Heq.
    + exfalso. subst bytes_data. unfold Multipart.stream_of in Hb. simpl in Hb.
      rewrite !length_app in Hb. lia.
  - destruct parts as [|[hdr img] parts].
    + change (Multipart.stream_of [] trailer) with trailer in Heq.
      rewrite demux_run_no_marker; [by rewrite Heq|].
      left. rewrite Heq. by apply find_text.
    + apply Forall_cons in Hp as [[Hh Hw] Hp]. simpl in Hh, Hw, Hb.
      pose proof (well_delimited_find _ Hw) as (_ & _ & Hlen2).
      cbn [Demux.demux_run concat] in *. rewrite app_assoc in Heq.
      rewrite stream_of_cons in Heq.
      destruct (decide (length (bytes_data ++ chunk) < length (hdr ++ img))%nat)
        as [Hlt|Hge].
      * assert (hdr ++ img = (bytes_data ++ chunk)
                  ++ take (length (hdr ++ img) - length (bytes_data ++ chunk))
                       (concat chunks)) as Himg.
        { rewrite <- take_app_ge by lia. by rewrite Heq, take_app_length. }
        rewrite (demux_step_headed_partial bytes_data chunk hdr img
                   (take (length (hdr ++ img) - length (bytes_data ++ chunk))
                      (concat chunks)) Hh Hw)
          by (rewrite ?app_assoc, <- ?Himg, <- ?length_app; done).
        rewrite (IH (bytes_data ++ chunk) ((hdr, img) :: parts) trailer); try done.
        -- by constructor.
        -- by rewrite stream_of_cons.
        -- intros c p Hc' Hp'. apply Hc; [by right | done].
        -- simpl. by rewrite <- length_app.
      * assert (bytes_data ++ chunk
                = (hdr ++ img) ++ drop (length (hdr ++ img)) (bytes_data ++ chunk))
          as Hsplit.
        { rewrite <- (take_drop (length (hdr ++ img)) (bytes_data ++ chunk)) at 1.
          f_equal. rewrite <- (take_app_le _ (concat chunks)) by lia.
          by rewrite Heq, take_app_length. }
        assert (drop (length (hdr ++ img)) (bytes_data ++ chunk) ++ concat chunks
                = Multipart.stream_of parts trailer) as Hrest.
        { rewrite <- drop_app_le by lia. by rewrite Heq, drop_app_length. }
        rewrite <- app_assoc in Hsplit.
        rewrite (demux_step_headed bytes_data chunk hdr img _ Hh Hw Hsplit).
        rewrite (IH _ parts trailer Hp Ht Hrest); [done | |].
        -- intros c p Hc' Hp'. apply Hc; [by right | by right].
        -- destruct parts as [|[hdr' img'] parts']; [done|]. simpl.
           rewrite length_drop. rewrite !length_app in *.
           specialize (Hc chunk (hdr', img') ltac:(by left) ltac:(right; by left)).
           simpl in Hc. lia.
Qed.

(** X2: on a multipart stream, where a text header precedes every
    well-delimited image and a text trailer closes the stream, and no
    chunk is longer than an image, the loop's demultiplexer cuts out
    every image, unchanged and in order, drops the headers, and is left
    with the trailer. *)
Theorem demux_skips_part_headers (chunks : list (list byte))
  (parts : list (list byte * list byte)) (trailer : list byte) :
  Forall (λ p, Multipart.text p.1 = true ∧ Demux.well_delimited p.2 = true) parts →
  Multipart.text trailer = true →
  concat chunks = Multipart.stream_of parts trailer →
  (∀ c p, c ∈ chunks → p ∈ parts → (length c ≤ length p.2)%nat) →
  Demux.demux_run [] chunks = (List.map snd parts, trailer).
Proof.
  intros Hp Ht Heq Hc. apply demux_run_parts; try done.
  destruct parts as [|[hdr img] parts]; [done|].
  apply Forall_cons in Hp as [[_ (_ & _ & ?)%well_delimited_find] _]. simpl in *. lia.
Qed.

Lemma demux_skips_part_headers_witness :
  Demux.demux_run []
    [[x0d; x0a; xff; xd8]; [x01; xff; xd9; x2d]; [x2d; xff; xd8; x02; x03];
     [xff; xd9; x0d; x0a]]
  = ([[xff; xd8; x01; xff; xd9]; [xff; xd8; x02; x03; xff; xd9]], [x0d; x0a]).
Proof.
  apply (demux_skips_part_headers
           [[x0d; x0a; xff; xd8]; [x01; xff; xd9; x2d]; [x2d; xff; xd8; x02; x03];
            [xff; xd9; x0d; x0a]]
           [([x0d; x0a], [xff; xd8; x01; xff; xd9]);
            ([x2d; x2d], [xff; xd8; x02; x03; xff; xd9])]
           [x0d; x0a]).
  - repeat constructor.
  - reflexivity.
  - reflexivity.
  - intros c p Hc Hp.
    repeat (apply elem_of_cons in Hc as [->|Hc]);
      repeat (apply elem_of_cons in Hp as [->|Hp]);
      simpl; try lia; by apply elem_of_nil in Hc || by apply elem_of_nil in Hp.
Defined.

(** ** More on the classifier *)



Lemma decide_gesture_label f :
  Classifier.decide_gesture f = "None"
  ∨ Classifier.decide_gesture f ∈ Classifier.priority.
Proof.
  rewrite decide_gesture_first_match. unfold Classifier.matching.
  destruct (List.filter _ Classifier.priority) as [|g gs] eqn:E; [by left|].
  right. simpl.
  assert (In g (List.filter (λ g, Classifier.condition g f) Classifier.priority)) as Hin
    by (rewrite E; by left).
  apply filter_In in Hin as [Hin _]. by apply list_elem_of_In.
Qed.

Lemma detect_gesture_label landmarks g :
  Classifier.detect_gesture landmarks = Ok g →
  g = "None" ∨ g ∈ Classifier.priority.
Proof.
  unfold Classifier.detect_gesture.
  destruct (Classifier.read_fingers landmarks) as [f|]; simpl; [|done].
  intros [= <-]. apply decide_gesture_label.
Qed.

(** X4: the labels of the classifier are the gestures of the registry.
    Whatever [detect_gesture] returns is "None" or a key of
    [DEFAULT_GESTURE_ACTIONS], and every key of [DEFAULT_GESTURE_ACTIONS]
    is returned on some pose. *)
Theorem classifier_labels_are_registry_keys :
  (∀ landmarks g,
      Classifier.detect_gesture landmarks = Ok g →
      g = "None" ∨ is_Some (Registry.DEFAULT_GESTURE_ACTIONS !! g))
  ∧ (∀ g, is_Some (Registry.DEFAULT_GESTURE_ACTIONS !! g) →
          ∃ landmarks, Classifier.detect_gesture landmarks = Ok g).
Proof.
  split.
  - intros landmarks g [->|Hg]%detect_gesture_label; [by left|]. right.
    unfold Classifier.priority in Hg.
    repeat (apply elem_of_cons in Hg as [->|Hg]); try (by vm_compute; eexists).
    by apply elem_of_nil in Hg.
  - intros g [a Hg]. unfold Registry.DEFAULT_GESTURE_ACTIONS in Hg.
    apply elem_of_list_to_map_2 in Hg.
    repeat (apply elem_of_cons in Hg as [[= -> ->]|Hg]).
    + by exists (hand raised lowered lowered lowered lowered).
    + by exists (hand lowered raised raised lowered lowered).
    + by exists (hand lowered lowered lowered lowered lowered).
    + by exists (hand raised raised raised raised raised).
    + by exists (hand lowered raised lowered lowered lowered).
    + by exists (hand lowered lowered raised raised lowered).
    + by exists (hand lowered lowered lowered lowered raised).
    + by apply elem_of_nil in Hg.
Qed.

Lemma classifier_labels_are_registry_keys_witness :
  ("fist" = "None" ∨ is_Some (Registry.DEFAULT_GESTURE_ACTIONS !! "fist"))
  ∧ ∃ landmarks, Classifier.detect_gesture landmarks = Ok "pinch".
Proof.
  split.
  - apply (proj1 classifier_labels_are_registry_keys closed_hand "fist"). reflexivity.
  - apply (proj2 classifier_labels_are_registry_keys "pinch"). by eexists.
Defined.

(** ** The classifier ignores where the hand is *)

Section Invariance.

Variable move : Classifier.landmark → Classifier.landmark.

Hypothesis move_order : ∀ a b,
  Qltb (Classifier.y (move a)) (Classifier.y (move b))
  = Qltb (Classifier.y a) (Classifier.y b).

Hypothesis move_distance : ∀ a b,
  ((Classifier.x (move a) - Classifier.x (move b))
   * (Classifier.x (move a) - Classifier.x (move b))
   + (Classifier.y (move a) - Classifier.y (move b))
     * (Classifier.y (move a) - Classifier.y (move b))
   == (Classifier.x a - Classifier.x b) * (Classifier.x a - Classifier.x b)
      + (Classifier.y a - Classifier.y b) * (Classifier.y a - Classifier.y b))%Q.

Lemma getitem_map landmarks i :
  Classifier.getitem (List.map move landmarks) i
  = p ← Classifier.getitem landmarks i; mret (move p).
Proof.
  unfold Classifier.getitem. revert i.
  induction landmarks as [|p l IH]; intros [|i]; simpl; try done.
Qed.

Lemma Qltb_proper a a' b b' : (a == a')%Q → (b == b')%Q → Qltb a b = Qltb a' b'.
Proof.
  intros Ha Hb. apply eq_true_iff_eq. rewrite !Qltb_lt. by rewrite Ha, Hb.
Qed.

Lemma detect_gesture_moved landmarks :
  Classifier.detect_gesture (List.map move landmarks)
  = Classifier.detect_gesture landmarks.
Proof.
  unfold Classifier.detect_gesture, Classifier.read_fingers.
  rewrite !getitem_map. unfold Classifier.getitem.
  repeat (match goal with
          | |- context [landmarks !! ?i] =>
              destruct (landmarks !! i); simpl; [|done]
          end).
  f_equal. unfold Classifier.decide_gesture.
  cbn [Classifier.thumb_up Classifier.index_up Classifier.middle_up
       Classifier.ring_up Classifier.pinky_up Classifier.thumb_index_dist2].
  rewrite !move_order. unfold Classifier.sqrt_lt.
  rewrite (Qltb_proper _ _ _ _ (move_distance _ _) (Qeq_refl (0.05 * 0.05))).
  rewrite (Qltb_proper _ _ _ _ (move_distance _ _) (Qeq_refl (0.08 * 0.08))).
  done.
Qed.

End Invariance.

(** X5: the gesture does not depend on where the hand is in the image:
    shifting every landmark by the same offset, or mirroring the image
    left to right, leaves the result of [detect_gesture] unchanged
    (also when it raises). *)
Theorem detect_gesture_shift_and_mirror (landmarks : list Classifier.landmark)
  (dx dy : Q) :
  Classifier.detect_gesture (List.map (Pose.shift dx dy) landmarks)
  = Classifier.detect_gesture landmarks
  ∧ Classifier.detect_gesture (List.map Pose.mirror landmarks)
    = Classifier.detect_gesture landmarks.
Proof.
  split; apply detect_gesture_moved.
  - intros a b. simpl. apply eq_true_iff_eq. rewrite !Qltb_lt. split; intros; lra.
  - intros a b. simpl. ring.
  - done.
  - intros a b. simpl. ring.
Qed.

(** ** More on the ingestion thread *)

(** What one pass of the loop body can emit and change. *)
Lemma loop_body_events sh bytes_data io sh' bytes_data' evs :
  Stream.loop_body sh bytes_data io = Ok (sh', bytes_data', evs) →
  (evs = []
   ∨ (∃ jpg, evs = [Stream.EvFrame jpg])
   ∨ (∃ jpg g, evs = [Stream.EvFrame jpg; Stream.EvDispatch g]
               ∧ g ∈ Classifier.priority))
  ∧ (∀ f, Stream.frame_queue sh = Some f → Stream.frame_queue sh' = Some f).
Proof.
  unfold Stream.loop_body.
  destruct (Demux.demux_step bytes_data (Stream.chunk io)) as [b [jpg|]].
  - destruct (Stream.decodable io); simpl; [|done].
    destruct (Stream.first_hand_gesture _) as [gesture|] eqn:Hg; simpl; [|done].
    unfold Dispatcher.on_gesture.
    destruct (Dispatcher.fires _ gesture _) eqn:Hf; intros [= <- <- <-]; simpl.
    + split.
      * right. right. exists jpg, gesture. split; [done|].
        apply fires_iff in Hf as [Hne _].
        unfold Stream.first_hand_gesture in Hg.
        destruct (Stream.multi_hand_landmarks io) as [|hand hands].
        -- by injection Hg as <-.
        -- by apply detect_gesture_label in Hg as [->|Hg].
      * intros f ->. done.
    + split; [right; left; by exists jpg|]. intros f ->. done.
  - intros [= <- <- <-]. split; [by left | done].
Qed.

(** X6: in every interleaving, from every state, a gesture handed to an
    action thread is one of the seven labels of the classifier; "None"
    is never dispatched. *)
Theorem dispatched_gestures_are_labels (schedule : list Stream.actor)
  (c : Stream.config) (g : string) :
  Stream.EvDispatch g ∈ (Stream.exec schedule c).2 →
  g ∈ Classifier.priority ∧ g ≠ "None".
Proof.
  intros H. assert (g ∈ Classifier.priority) as Hg.
  { revert c H. induction schedule as [|a schedule IH]; intros c H.
    - simpl in H. by apply elem_of_nil in H.
    - cbn [Stream.exec] in H.
      destruct (Stream.step a c) as [c1 evs1] eqn:Hstep.
      specialize (IH c1). destruct (Stream.exec schedule c1) as [c2 evs2].
      simpl in *. apply elem_of_app in H as [H|H]; [|by apply IH].
      destruct a; simpl in Hstep.
      + unfold Stream.ingest_step in Hstep.
        destruct (Stream.at_pc (Stream.thread c)) as [|io|].
        * destruct (Stream.stream _); [|destruct (Stream.is_running _)];
            injection Hstep as <- <-; by apply elem_of_nil in H.
        * destruct (Stream.loop_body _ _ io) as [[[sh' b'] evs]|e] eqn:Hbody.
          -- injection Hstep as <- <-.
             apply loop_body_events in Hbody as [[->|[[jpg ->]|(jpg & g' & -> & Hg')]] _].
             ++ by apply elem_of_nil in H.
             ++ apply elem_of_cons in H as [[=]|H]. by apply elem_of_nil in H.
             ++ apply elem_of_cons in H as [[=]|H].
                apply elem_of_cons in H as [[= ->]|H]; [done|].
                by apply elem_of_nil in H.
          -- injection Hstep as <- <-.
             apply elem_of_cons in H as [[=]|H]. by apply elem_of_nil in H.
        * injection Hstep as <- <-. by apply elem_of_nil in H.
      + unfold Stream.stop_stream in Hstep. injection Hstep as <- <-.
        apply elem_of_cons in H as [[=]|H]. by apply elem_of_nil in H.
      + unfold Stream.update_display in Hstep.
        destruct (Stream.is_running _); injection Hstep as <- <-;
          by apply elem_of_nil in H. }
  split; [done|]. intros ->. unfold Classifier.priority in Hg.
  repeat (apply elem_of_cons in Hg as [[=]|Hg]). by apply elem_of_nil in Hg.
Qed.

Lemma dispatched_gestures_are_labels_witness :
  Stream.EvDispatch "fist"
  ∈ (Stream.exec [Stream.Ingest; Stream.Stop; Stream.Ingest]
       (Stream.started Dispatcher.initial one_fist_frame)).2
  ∧ "fist" ∈ Classifier.priority ∧ "fist" ≠ "None".
Proof.
  assert (Stream.EvDispatch "fist"
          ∈ (Stream.exec [Stream.Ingest; Stream.Stop; Stream.Ingest]
               (Stream.started Dispatcher.initial one_fist_frame)).2) as H
    by (apply list_elem_of_In; vm_compute; tauto).
  split; [exact H|].
  exact (dispatched_gestures_are_labels [Stream.Ingest; Stream.Stop; Stream.Ingest]
           (Stream.started Dispatcher.initial one_fist_frame) "fist" H).
Defined.

(** One move of any actor: what it emits and what it leaves alone. *)
Lemma step_events a c c1 evs1 :
  Stream.step a c = (c1, evs1) →
  (Stream.dispatches evs1 ≤ length (Stream.frames_of evs1))%nat
  ∧ (length (Stream.frames_of evs1) + Schedules.chunks_left c1
     ≤ Schedules.chunks_left c)%nat
  ∧ (a ≠ Stream.Display →
     ∀ f, Stream.frame_queue (Stream.self c) = Some f →
          Stream.frame_queue (Stream.self c1) = Some f)
  ∧ (a ≠ Stream.Stop →
     Stream.is_running (Stream.self c1) = Stream.is_running (Stream.self c))
  ∧ (Stream.at_pc (Stream.thread c) = Stream.Finished →
     Stream.at_pc (Stream.thread c1) = Stream.Finished
     ∧ Stream.frames_of evs1 = []).
Proof.
  intros Hstep. unfold Schedules.chunks_left, Stream.dispatches.
  destruct a; simpl in Hstep.
  - unfold Stream.ingest_step in Hstep. destruct c as [sh [p b s]]. simpl in *.
    destruct p as [|io|].
    + destruct s as [|io rest]; [|destruct (Stream.is_running sh) eqn:Hr];
        injection Hstep as <- <-; simpl; repeat split; (done || lia).
    + destruct (Stream.loop_body sh b io) as [[[sh' b'] evs]|e] eqn:Hbody.
      * injection Hstep as <- <-. simpl.
        pose proof (loop_body_dispatches _ _ _ _ _ _ Hbody) as [Hrun _].
        apply loop_body_events in Hbody
          as [[->|[[jpg ->]|(jpg & g' & -> & Hg')]] Hq];
          simpl; repeat split; (done || lia || auto).
      * injection Hstep as <- <-. simpl. repeat split; (done || lia).
    + injection Hstep as <- <-. simpl. repeat split; (done || lia).
  - unfold Stream.stop_stream in Hstep. injection Hstep as <- <-. simpl.
    repeat split; (done || lia).
  - unfold Stream.update_display in Hstep.
    destruct (Stream.is_running (Stream.self c)) eqn:Hrun;
      injection Hstep as <- <-; simpl; repeat split; (done || lia).
Qed.

Lemma frames_of_app evs1 evs2 :
  Stream.frames_of (evs1 ++ evs2) = Stream.frames_of evs1 ++ Stream.frames_of evs2.
Proof. unfold Stream.frames_of. apply omap_app. Qed.

(** X7: the frame buffer keeps the oldest frame. As long as the
    presentation thread does not take it, a frame waiting in
    [frame_queue] is still there after any moves of the ingestion thread
    and of [stop_stream]: later frames are dropped, not put in its
    place. *)
Theorem waiting_frame_is_kept (schedule : list Stream.actor) (c : Stream.config)
  (f : list byte) :
  Schedules.has_display schedule = false →
  Stream.frame_queue (Stream.self c) = Some f →
  Stream.frame_queue (Stream.self (Stream.exec schedule c).1) = Some f.
Proof.
  revert c. induction schedule as [|a schedule IH]; intros c Hd Hq; [done|].
  cbn [Stream.exec]. destruct (Stream.step a c) as [c1 evs1] eqn:Hstep.
  simpl in Hd. apply orb_false_iff in Hd as [Ha Hd].
  apply step_events in Hstep as (_ & _ & Hkeep & _).
  specialize (IH c1 Hd (Hkeep ltac:(by destruct a) f Hq)).
  by destruct (Stream.exec schedule c1).
Qed.

Lemma waiting_frame_is_kept_witness :
  Stream.frame_queue
    (Stream.self
       (Stream.exec [Stream.Ingest; Stream.Ingest]
          (Stream.started Dispatcher.initial two_fist_frames)).1)
  = Some [xff; xd8; x01; xff; xd9]
  ∧ Stream.frame_queue
      (Stream.self
         (Stream.exec [Stream.Ingest; Stream.Ingest; Stream.Stop]
            (Stream.exec [Stream.Ingest; Stream.Ingest]
               (Stream.started Dispatcher.initial two_fist_frames)).1).1)
    = Some [xff; xd8; x01; xff; xd9].
Proof.
  split; [reflexivity|].
  apply (waiting_frame_is_kept [Stream.Ingest; Stream.Ingest; Stream.Stop]
           (Stream.exec [Stream.Ingest; Stream.Ingest]
              (Stream.started Dispatcher.initial two_fist_frames)).1
           [xff; xd8; x01; xff; xd9]); reflexivity.
Defined.

(** X8: in every interleaving there is at most one dispatch per frame cut
    out, and at most one frame per chunk the ingestion thread has still
    to process. *)
Theorem one_dispatch_per_frame_per_chunk (schedule : list Stream.actor)
  (c : Stream.config) :
  (Stream.dispatches (Stream.exec schedule c).2
   ≤ length (Stream.frames_of (Stream.exec schedule c).2))%nat
  ∧ (length (Stream.frames_of (Stream.exec schedule c).2)
     ≤ Schedules.chunks_left c)%nat.
Proof.
  revert c. induction schedule as [|a schedule IH]; intros c.
  - simpl. unfold Stream.dispatches. simpl. lia.
  - cbn [Stream.exec]. destruct (Stream.step a c) as [c1 evs1] eqn:Hstep.
    apply step_events in Hstep as (H1 & H2 & _).
    specialize (IH c1). destruct (Stream.exec schedule c1) as [c2 evs2].
    simpl in *. rewrite dispatches_app, frames_of_app, length_app. lia.
Qed.

Lemma finished_is_silent schedule : ∀ c,
  Stream.at_pc (Stream.thread c) = Stream.Finished →
  Stream.at_pc (Stream.thread (Stream.exec schedule c).1) = Stream.Finished
  ∧ Stream.frames_of (Stream.exec schedule c).2 = []
  ∧ Stream.dispatches (Stream.exec schedule c).2 = 0%nat
  ∧ (Schedules.has_stop schedule = false →
     Stream.is_running (Stream.self (Stream.exec schedule c).1)
     = Stream.is_running (Stream.self c)).
Proof.
  induction schedule as [|a schedule IH]; intros c Hfin; [done|].
  cbn [Stream.exec]. destruct (Stream.step a c) as [c1 evs1] eqn:Hstep.
  apply step_events in Hstep as (Hd & _ & _ & Hrun & Hf).
  destruct (Hf Hfin) as [Hfin1 Hfr1].
  destruct (IH c1 Hfin1) as (H1 & H2 & H3 & H4).
  destruct (Stream.exec schedule c1) as [c2 evs2]. simpl in *.
  rewrite frames_of_app, dispatches_app, Hfr1, H2, H3. rewrite Hfr1 in Hd. simpl in Hd.
  repeat split; try done; [lia|].
  intros [Ha Hs]%orb_false_iff. rewrite (H4 Hs). apply Hrun. by destruct a.
Qed.

(** X9: an exception in the loop body ends the ingestion for good but
    leaves [is_running] up. When the pass over the chunk in hand cuts out
    an image that does not decode, or whose first reported hand has fewer
    than 21 landmarks, the thread reports a stream error and finishes;
    whatever moves follow, no frame is cut out and no gesture dispatched
    any more, and unless [stop_stream] is called [is_running] stays as it
    was. *)
Theorem stream_error_is_final (c : Stream.config) (io : Stream.chunk_io)
  (jpg : list byte) (schedule : list Stream.actor) :
  Stream.at_pc (Stream.thread c) = Stream.Body io →
  (Demux.demux_step (Stream.bytes_data (Stream.thread c)) (Stream.chunk io)).2
  = Some jpg →
  (Stream.decodable io = false
   ∨ ∃ hand hands, Stream.multi_hand_landmarks io = hand :: hands
                   ∧ (length hand < 21)%nat) →
  (∃ e, (Stream.exec [Stream.Ingest] c).2 = [Stream.EvStreamError e])
  ∧ Stream.at_pc (Stream.thread (Stream.exec (Stream.Ingest :: schedule) c).1)
    = Stream.Finished
  ∧ Stream.frames_of (Stream.exec (Stream.Ingest :: schedule) c).2 = []
  ∧ Stream.dispatches (Stream.exec (Stream.Ingest :: schedule) c).2 = 0%nat
  ∧ (Schedules.has_stop schedule = false →
     Stream.is_running (Stream.self (Stream.exec (Stream.Ingest :: schedule) c).1)
     = Stream.is_running (Stream.self c)).
Proof.
  intros Hpc Hcut Hbad.
  assert (∃ e, Stream.loop_body (Stream.self c) (Stream.bytes_data (Stream.thread c)) io
               = Raise e) as [e He].
  { unfold Stream.loop_body.
    destruct (Demux.demux_step _ _) as [b o]. simpl in Hcut. subst o.
    destruct (Stream.decodable io) eqn:Hdec; simpl; [|by eexists].
    destruct Hbad as [?|(hand & hands & -> & Hlen)]; [done|].
    simpl. unfold Classifier.detect_gesture.
    rewrite read_fingers_short by done. by eexists. }
  cbn [Stream.exec Stream.step]. unfold Stream.ingest_step. rewrite Hpc, He.
  split; [by exists e|].
  set (c1 := {| Stream.self := Stream.self c; Stream.thread := _ |}).
  destruct (finished_is_silent schedule c1 eq_refl) as (H1 & H2 & H3 & H4).
  destruct (Stream.exec schedule c1) as [c2 evs2]. simpl in *.
  repeat split; done.
Qed.

Lemma stream_error_is_final_witness :
  (∃ e, (Stream.exec [Stream.Ingest]
           (Stream.exec [Stream.Ingest]
              (Stream.started Dispatcher.initial
                 (short_hand_frame :: one_fist_frame))).1).2
        = [Stream.EvStreamError e])
  ∧ Stream.dispatches
      (Stream.exec [Stream.Ingest; Stream.Ingest; Stream.Ingest; Stream.Ingest]
         (Stream.exec [Stream.Ingest]
            (Stream.started Dispatcher.initial
               (short_hand_frame :: one_fist_frame))).1).2 = 0%nat.
Proof.
  pose proof (stream_error_is_final
                (Stream.exec [Stream.Ingest]
                   (Stream.started Dispatcher.initial
                      (short_hand_frame :: one_fist_frame))).1
                short_hand_frame [xff; xd8; x01; xff; xd9]
                [Stream.Ingest; Stream.Ingest; Stream.Ingest]
                eq_refl eq_refl) as H.
  destruct H as (H1 & _ & _ & H4 & _).
  - right. exists (take 20 closed_hand), []. split; [reflexivity | simpl; lia].
  - split; [exact H1 | exact H4].
Defined.

(** ** Saving, loading and resetting the registry *)

Lemma load_falls_back file (h : gmap Registry.loc (gmap string Registry.json)) d0 :
  file = Registry.Absent ∨ file = Registry.Unreadable ∨ file = Registry.Malformed →
  h !! Registry.DEFAULT_LOC = Some d0 →
  Registry.load_gesture_config file h
  = (Registry.RefDict (fresh (dom h)), <[fresh (dom h) := d0]> h).
Proof.
  intros Hfile H.
  unfold Registry.load_gesture_config, Registry.py_copy, Registry.alloc.
  rewrite H. by destruct Hfile as [->|[->| ->]].
Qed.

Lemma dict_of_members_to_list (d : gmap string Registry.json) :
  Registry.dict_of_members (map_to_list d) = d.
Proof.
  unfold Registry.dict_of_members.
  rewrite <- (list_to_map_proper (map_to_list d) (rev (map_to_list d))).
  - apply list_to_map_to_list.
  - apply NoDup_fst_map_to_list.
  - apply Permutation_rev.
Qed.

(** X10: saving and loading is a round trip. The file written by a
    successful [save_gesture_config], loaded again by
    [load_gesture_config] (into any heap that holds the defaults), gives
    a new dictionary that has every pair of the saved registry, with the
    defaults added for the keys it lacks; for a registry that has all the
    default keys it is the saved mapping itself. *)
Theorem save_then_load_round_trip (r : Registry.registry) (l : Registry.loc)
  (d d0 : gmap string Registry.json)
  (h : gmap Registry.loc (gmap string Registry.json)) :
  Registry.gesture_actions r = Registry.RefDict l →
  Registry.objects r !! l = Some d →
  h !! Registry.DEFAULT_LOC = Some d0 →
  ∃ l' cfg,
    Registry.load_gesture_config
      (Registry.config_file (Registry.save_gesture_config r true)) h
    = (Registry.RefDict l', <[l' := cfg]> h)
    ∧ (l' ∉ dom h)
    ∧ (∀ k v, d !! k = Some v → cfg !! k = Some v)
    ∧ (∀ k, d !! k = None → cfg !! k = d0 !! k)
    ∧ ((∀ k, is_Some (d0 !! k) → is_Some (d !! k)) → cfg = d).
Proof.
  intros Href Hd Hdef. destruct (fresh_not_default h d0 Hdef) as [Hf _].
  unfold Registry.save_gesture_config, Registry.dump. simpl. rewrite Href, Hd. simpl.
  rewrite (load_object _ h d0 Hdef), dict_of_members_to_list.
  exists (fresh (dom h)), (d ∪ d0). split; [done|]. split; [done|].
  split; [|split].
  - intros k v Hk. by apply lookup_union_Some_l.
  - intros k Hk. by apply lookup_union_r.
  - intros Hall. apply map_eq. intros k. rewrite lookup_union.
    destruct (d !! k) as [v|] eqn:Hk; [by destruct (d0 !! k)|].
    destruct (d0 !! k) as [v0|] eqn:Hk0; [|done].
    destruct (Hall k ltac:(by rewrite Hk0)) as [v Hv]. congruence.
Qed.

Lemma save_then_load_round_trip_witness :
  ∃ l' cfg,
    Registry.load_gesture_config
      (Registry.config_file (Registry.save_gesture_config fresh_registry true))
      Registry.module_heap
    = (Registry.RefDict l', <[l' := cfg]> Registry.module_heap)
    ∧ (l' ∉ dom Registry.module_heap)
    ∧ (∀ k v, Registry.DEFAULT_GESTURE_ACTIONS !! k = Some v → cfg !! k = Some v)
    ∧ (∀ k, Registry.DEFAULT_GESTURE_ACTIONS !! k = None
            → cfg !! k = Registry.DEFAULT_GESTURE_ACTIONS !! k)
    ∧ ((∀ k, is_Some (Registry.DEFAULT_GESTURE_ACTIONS !! k)
             → is_Some (Registry.DEFAULT_GESTURE_ACTIONS !! k))
       → cfg = Registry.DEFAULT_GESTURE_ACTIONS).
Proof.
  apply (save_then_load_round_trip fresh_registry 1%nat
           Registry.DEFAULT_GESTURE_ACTIONS Registry.DEFAULT_GESTURE_ACTIONS
           Registry.module_heap); reflexivity.
Defined.

Lemma reset_computes (r : Registry.registry) vars writable d0 :
  Registry.objects r !! Registry.DEFAULT_LOC = Some d0 →
  Config.reset_gesture_config r vars writable
  = (Registry.save_gesture_config
       {| Registry.gesture_actions := Registry.RefDict (fresh (dom (Registry.objects r)));
          Registry.objects := <[fresh (dom (Registry.objects r)) := d0]> (Registry.objects r);
          Registry.config_file := Registry.config_file r;
          Registry.saves_failed := Registry.saves_failed r |} writable,
     match vars with
     | Some vars => Some (map_imap (λ k _, Some (default (Registry.JStr "none") (d0 !! k))) vars)
     | None => None
     end).
Proof.
  intros H. unfold Config.reset_gesture_config, Registry.py_copy, Registry.alloc.
  rewrite H. simpl. f_equal. destruct vars as [vars|]; [|done]. f_equal.
  apply map_imap_ext. intros k. unfold Registry.action_of. simpl.
  by rewrite lookup_insert_eq.
Qed.

(** X11: [reset_gesture_config], from any state of the registry, makes
    every gesture's action its default again ("none" for a key without a
    default). The registry's dictionary is a new object, not the
    defaults' own; the defaults and every other dictionary of the heap
    are left as they were; the Tk variables of the gesture tab show the
    defaults; and when the file can be written it holds the defaults. *)
Theorem reset_restores_defaults (r : Registry.registry)
  (gesture_vars : option (gmap string Registry.json)) (writable : bool)
  (d0 : gmap string Registry.json) :
  Registry.objects r !! Registry.DEFAULT_LOC = Some d0 →
  let r' := (Config.reset_gesture_config r gesture_vars writable).1 in
  let vars' := (Config.reset_gesture_config r gesture_vars writable).2 in
  (∀ g, Registry.action_of r' g = default (Registry.JStr "none") (d0 !! g))
  ∧ (∃ l, Registry.gesture_actions r' = Registry.RefDict l
          ∧ (l ∉ dom (Registry.objects r))
          ∧ Registry.objects r' = <[l := d0]> (Registry.objects r))
  ∧ (∀ l d, Registry.objects r !! l = Some d → Registry.objects r' !! l = Some d)
  ∧ (∀ vars k, gesture_vars = Some vars → is_Some (vars !! k) →
       ∃ vars1, vars' = Some vars1
                ∧ vars1 !! k = Some (default (Registry.JStr "none") (d0 !! k)))
  ∧ (writable = true →
     Registry.config_file r' = Registry.Holds (Registry.JObj (map_to_list d0))).
Proof.
  intros H r' vars'. subst r' vars'. rewrite (reset_computes r _ _ d0 H).
  destruct (fresh_not_default _ d0 H) as [Hf Hne].
  cbn [fst snd]. unfold Registry.save_gesture_config, Registry.action_of, Registry.dump.
  split; [|split; [|split; [|split]]].
  - intros g. destruct writable; simpl; by rewrite lookup_insert_eq.
  - exists (fresh (dom (Registry.objects r))). by destruct writable.
  - intros l d Hl. assert (l ≠ fresh (dom (Registry.objects r))) as Hl'.
    { intros ->. apply Hf, elem_of_dom. eauto. }
    destruct writable; simpl; by rewrite lookup_insert_ne.
  - intros vars k -> [v Hk]. eexists. split; [done|].
    rewrite map_lookup_imap, Hk. done.
  - intros ->. simpl. by rewrite lookup_insert_eq.
Qed.

Lemma reset_restores_defaults_witness :
  (r ← Registry.update_gesture_mapping fresh_registry "fist" "explode" true;
   mret (Registry.action_of r "fist")) = Ok (Registry.JStr "explode")
  ∧ (r ← Registry.update_gesture_mapping fresh_registry "fist" "explode" true;
     mret (Registry.action_of (Config.reset_gesture_config r None true).1 "fist"))
    = Ok (Registry.JStr "stop").
Proof.
  split; [by vm_compute|].
  destruct (Registry.update_gesture_mapping fresh_registry "fist" "explode" true)
    as [r|e] eqn:E; [|by vm_compute in E].
  simpl. f_equal.
  assert (Registry.objects r !! Registry.DEFAULT_LOC
          = Some Registry.DEFAULT_GESTURE_ACTIONS) as H
    by (vm_compute in E; injection E as <-; reflexivity).
  destruct (reset_restores_defaults r None true Registry.DEFAULT_GESTURE_ACTIONS H)
    as [Hact _].
  rewrite Hact. reflexivity.
Defined.

Lemma startup_owns file :
  Session.usual file = true → Session.owns_its_dict (Config.startup file).
Proof.
  intros Hf. unfold Config.startup, Session.owns_its_dict.
  assert (Registry.module_heap !! Registry.DEFAULT_LOC
          = Some Registry.DEFAULT_GESTURE_ACTIONS) as Hdef by done.
  destruct (fresh_not_default _ _ Hdef) as [_ Hne].
  destruct file as [| | |v].
  - rewrite (load_falls_back Registry.Absent _ _ ltac:(by left) Hdef).
    simpl. eexists _, _.
    repeat split; try done; by rewrite ?lookup_insert_eq, ?lookup_insert_ne.
  - rewrite (load_falls_back Registry.Unreadable _ _ ltac:(right; by left) Hdef).
    simpl. eexists _, _.
    repeat split; try done; by rewrite ?lookup_insert_eq, ?lookup_insert_ne.
  - rewrite (load_falls_back Registry.Malformed _ _ ltac:(right; by right) Hdef).
    simpl. eexists _, _.
    repeat split; try done; by rewrite ?lookup_insert_eq, ?lookup_insert_ne.
  - destruct v as [| | | | |members]; try done.
    rewrite (load_object members _ _ Hdef). simpl.
    eexists _, _.
    repeat split; try done; by rewrite ?lookup_insert_eq, ?lookup_insert_ne.
Qed.

Lemma session_keeps_ownership ops : ∀ r,
  Session.owns_its_dict r → ∃ r', Session.run r ops = Ok r' ∧ Session.owns_its_dict r'.
Proof.
  induction ops as [|[gesture action writable|writable|writable] ops IH];
    intros r (l & d & Href & Hne & Hd & Hdef).
  - exists r. split; [done|]. by exists l, d.
  - cbn [Session.run]. unfold Registry.update_gesture_mapping, Registry.py_setitem.
    rewrite Href, Hd. simpl. apply IH.
    exists l, (<[gesture := Registry.JStr action]> d).
    destruct writable; simpl; repeat split; try done;
      by rewrite ?lookup_insert_eq, ?lookup_insert_ne.
  - cbn [Session.run]. apply IH. exists l, d. by destruct writable.
  - cbn [Session.run]. apply IH.
    rewrite (reset_computes r None writable _ Hdef). simpl.
    destruct (fresh_not_default _ _ Hdef) as [_ Hne'].
    eexists _, _. destruct writable; simpl; repeat split; try done;
      by rewrite ?lookup_insert_eq, ?lookup_insert_ne.
Qed.

(** X12: the compiled-in defaults survive every session. For a
    controller started without a configuration file, with an unusable
    one or with one holding a JSON object, no sequence of mapping
    updates, saves and resets raises, and after it
    [DEFAULT_GESTURE_ACTIONS] is still the compiled-in table and the
    registry still has a dictionary of its own. *)
Theorem session_never_touches_defaults (file : Registry.file_state)
  (ops : list Session.op) :
  Session.usual file = true →
  ∃ r l d,
    Session.run (Config.startup file) ops = Ok r
    ∧ Registry.gesture_actions r = Registry.RefDict l
    ∧ l ≠ Registry.DEFAULT_LOC
    ∧ Registry.objects r !! l = Some d
    ∧ Registry.objects r !! Registry.DEFAULT_LOC
      = Some Registry.DEFAULT_GESTURE_ACTIONS.
Proof.
  intros Hf.
  destruct (session_keeps_ownership ops _ (startup_owns file Hf))
    as (r & Hrun & l & d & H).
  by exists r, l, d.
Qed.

Lemma session_never_touches_defaults_witness :
  ∃ r l d,
    Session.run (Config.startup persisted_wave)
      [Session.Update "fist" "explode" true; Session.Reset false;
       Session.Update "peace" "stop" true] = Ok r
    ∧ Registry.gesture_actions r = Registry.RefDict l
    ∧ l ≠ Registry.DEFAULT_LOC
    ∧ Registry.objects r !! l = Some d
    ∧ Registry.objects r !! Registry.DEFAULT_LOC
      = Some Registry.DEFAULT_GESTURE_ACTIONS.
Proof.
  apply (session_never_touches_defaults persisted_wave
           [Session.Update "fist" "explode" true; Session.Reset false;
            Session.Update "peace" "stop" true]).
  reflexivity.
Defined.

(** The loop over the default keys on a value that is no dictionary: it
    goes through when every key is found, and raises at the first that is
    not. *)
Lemma add_missing_imm (h : gmap Registry.loc (gmap string Registry.json)) v defaults :
  (∀ members, v ≠ Registry.JObj members) →
  defaults ≠ [] →
  Registry.add_missing h (Registry.Imm v) defaults
  = if forallb (λ kv, Session.holds_key v kv.1) defaults then Ok h
    else Raise TypeError.
Proof.
  intros Hv. induction defaults as [|[k a] defaults IH]; intros Hne; [done|].
  cbn [Registry.add_missing forallb fst].
  assert (defaults = [] ∨ defaults ≠ []) as [->|Hne']
    by (destruct defaults; [by left | by right]).
  - destruct v as [|b|q|s|items|members]; simpl; try done;
      try (by destruct (Hv members));
      (destruct (Registry.str_contains k s) || destruct (existsb (Registry.is_str k) items));
      done.
  - specialize (IH Hne').
    destruct v as [|b|q|s|items|members]; simpl; try done;
      try (by destruct (Hv members));
      (destruct (Registry.str_contains k s) || destruct (existsb (Registry.is_str k) items));
      simpl; (done || apply IH).
Qed.

(** X13: a well-formed configuration file that holds no JSON object.
    [load_gesture_config] returns a fresh copy of the defaults, unless
    the value is an array or a string in which every default key is
    found ([k in cfg]); then it returns that value itself, which is no
    dictionary, and the heap is unchanged. *)
Theorem load_of_non_object (v : Registry.json)
  (h : gmap Registry.loc (gmap string Registry.json))
  (d0 : gmap string Registry.json) :
  (∀ members, v ≠ Registry.JObj members) →
  h !! Registry.DEFAULT_LOC = Some d0 →
  d0 ≠ ∅ →
  ((∀ k, is_Some (d0 !! k) → Session.holds_key v k = true) →
   Registry.load_gesture_config (Registry.Holds v) h = (Registry.Imm v, h))
  ∧ ((∃ k, is_Some (d0 !! k) ∧ Session.holds_key v k = false) →
     Registry.load_gesture_config (Registry.Holds v) h
     = (Registry.RefDict (fresh (dom h)), <[fresh (dom h) := d0]> h)).
Proof.
  intros Hv Hdef Hne.
  assert (map_to_list d0 ≠ []) as Hl.
  { intros Hnil. apply Hne. by apply map_to_list_empty_iff. }
  assert (Registry.load_gesture_config (Registry.Holds v) h
          = if forallb (λ kv, Session.holds_key v kv.1) (map_to_list d0)
            then (Registry.Imm v, h)
            else (Registry.RefDict (fresh (dom h)), <[fresh (dom h) := d0]> h)) as ->.
  { unfold Registry.load_gesture_config, Registry.try_load, Registry.py_copy,
      Registry.alloc. simpl.
    assert ((let '(cfg, h0) :=
               match v with
               | Registry.JObj members =>
                   let '(l, h0) :=
                     (fresh (dom h), <[fresh (dom h) := Registry.dict_of_members members]> h)
                   in (Registry.RefDict l, h0)
               | _ => (Registry.Imm v, h)
               end in
             Registry.add_missing h0 cfg (map_to_list (default ∅ (h0 !! Registry.DEFAULT_LOC)))
             ≫= λ h1, mret (cfg, h1))
            = Registry.add_missing h (Registry.Imm v) (map_to_list d0)
              ≫= λ h1, mret (Registry.Imm v, h1)) as ->.
    { destruct v as [|b|q|s|items|members]; try (by rewrite Hdef).
      by destruct (Hv members). }
    rewrite (add_missing_imm h v _ Hv Hl), Hdef.
    by destruct (forallb _ _). }
  split.
  - intros Hall.
    assert (forallb (λ kv, Session.holds_key v kv.1) (map_to_list d0) = true) as ->; [|done].
    apply forallb_forall. intros [k a] Hin%list_elem_of_In%elem_of_map_to_list.
    apply Hall. by exists a.
  - intros (k & [a Hk] & Hmiss).
    assert (forallb (λ kv, Session.holds_key v kv.1) (map_to_list d0) = false) as ->; [|done].
    apply not_true_is_false. intros Hall. rewrite forallb_forall in Hall.
    specialize (Hall (k, a)). simpl in Hall. rewrite Hall in Hmiss; [done|].
    by apply list_elem_of_In, elem_of_map_to_list.
Qed.

Lemma load_of_non_object_witness :
  Registry.load_gesture_config (Registry.Holds array_of_gestures) Registry.module_heap
  = (Registry.Imm array_of_gestures, Registry.module_heap)
  ∧ Registry.load_gesture_config (Registry.Holds (Registry.JNum 5)) Registry.module_heap
    = (Registry.RefDict (fresh (dom Registry.module_heap)),
       <[fresh (dom Registry.module_heap) := Registry.DEFAULT_GESTURE_ACTIONS]>
         Registry.module_heap).
Proof.
  split.
  - apply (load_of_non_object array_of_gestures Registry.module_heap
             Registry.DEFAULT_GESTURE_ACTIONS); [done | done | done |].
    intros k [a Hk]. unfold Registry.DEFAULT_GESTURE_ACTIONS in Hk.
    apply elem_of_list_to_map_2 in Hk.
    repeat (apply elem_of_cons in Hk as [[= -> ->]|Hk]); try reflexivity.
    by apply elem_of_nil in Hk.
  - apply (load_of_non_object (Registry.JNum 5) Registry.module_heap
             Registry.DEFAULT_GESTURE_ACTIONS); [done | done | done |].
    exists "fist". split; [by eexists | reflexivity].
Defined.

(** ** More on the display channel *)

Lemma run_app ops1 ops2 c :
  DisplayChannel.run c (ops1 ++ ops2)
  = ((DisplayChannel.run (DisplayChannel.run c ops1).1 ops2).1,
     (DisplayChannel.run c ops1).2
     ++ (DisplayChannel.run (DisplayChannel.run c ops1).1 ops2).2).
Proof.
  revert c. induction ops1 as [|[message network|ip sp wp|v] ops1 IH]; intros c.
  - simpl. by destruct (DisplayChannel.run c ops2).
  - cbn [app DisplayChannel.run].
    destruct (DisplayChannel.send_to_esp32_display c message network) as [c1 req].
    rewrite (IH c1). destruct (DisplayChannel.run c1 ops1) as [c2 reqs].
    simpl. by destruct req.
  - cbn [app DisplayChannel.run]. apply IH.
  - cbn [app DisplayChannel.run]. apply IH.
Qed.

(** X14: a network call that raises is the last one. Whatever was done
    before, once a send has met a network that raises, no later send,
    settings update or transport selection of the run reaches the network
    again, and the channel ends unavailable. *)
Theorem raising_call_is_the_last (c : DisplayChannel.channel)
  (before after : list DisplayChannel.op) (message : string)
  (network : DisplayChannel.request → DisplayChannel.outcome) :
  (∀ req, network req = DisplayChannel.Raised) →
  (DisplayChannel.run c (before ++ DisplayChannel.Send message network :: after)).2
  = (DisplayChannel.run c (before ++ [DisplayChannel.Send message network])).2
  ∧ DisplayChannel.display_available
      (DisplayChannel.run c (before ++ DisplayChannel.Send message network :: after)).1
    = false.
Proof.
  intros Hnet.
  change (DisplayChannel.Send message network :: after)
    with ([DisplayChannel.Send message network] ++ after).
  rewrite app_assoc, run_app.
  set (c1 := (DisplayChannel.run c (before ++ [DisplayChannel.Send message network])).1).
  assert (DisplayChannel.display_available c1 = false) as Hoff.
  { subst c1. rewrite run_app. cbn [DisplayChannel.run fst snd].
    set (c0 := (DisplayChannel.run c before).1).
    destruct (DisplayChannel.display_available c0) eqn:Hav.
    - destruct (send_available c0 message network Hav) as (req & _ & Hflag).
      rewrite Hnet in Hflag.
      by destruct (DisplayChannel.send_to_esp32_display c0 message network).
    - rewrite send_unavailable by done. done. }
  destruct (run_unavailable after c1 Hoff) as [H1 H2].
  cbn [fst snd]. rewrite H1, app_nil_r. done.
Qed.

Lemma raising_call_is_the_last_witness :
  (DisplayChannel.run DisplayChannel.initial
     ([DisplayChannel.Send "a" (answers 200)]
      ++ DisplayChannel.Send "b" unreachable
         :: [DisplayChannel.Send "c" (answers 200);
             DisplayChannel.UpdateSettings "192.168.1.50" "80" "81";
             DisplayChannel.Send "d" (answers 200)])).2
  = (DisplayChannel.run DisplayChannel.initial
       ([DisplayChannel.Send "a" (answers 200)]
        ++ [DisplayChannel.Send "b" unreachable])).2
  ∧ DisplayChannel.display_available
      (DisplayChannel.run DisplayChannel.initial
         ([DisplayChannel.Send "a" (answers 200)]
          ++ DisplayChannel.Send "b" unreachable
             :: [DisplayChannel.Send "c" (answers 200);
                 DisplayChannel.UpdateSettings "192.168.1.50" "80" "81";
                 DisplayChannel.Send "d" (answers 200)])).1
    = false.
Proof.
  apply (raising_call_is_the_last DisplayChannel.initial
           [DisplayChannel.Send "a" (answers 200)]
           [DisplayChannel.Send "c" (answers 200);
            DisplayChannel.UpdateSettings "192.168.1.50" "80" "81";
            DisplayChannel.Send "d" (answers 200)] "b" unreachable).
  reflexivity.
Defined.

(** ** Languages *)

Lemma language_names name :
  In name (Languages.keys Languages.languages) →
  ∃ i, (i < 16)%nat ∧ name = nth i (Languages.keys Languages.languages) "".
Proof.
  intros H.
  apply (In_nth _ _ "") in H as (i & Hi & Hn). exists i. split; [exact Hi | done].
Qed.

Lemma cycle_step i s :
  (i < 16)%nat →
  Languages.target_lang_var s = nth i (Languages.keys Languages.languages) "" →
  Languages.target_lang_var (Languages.cycle_target_language s)
  = nth ((i + 1) mod 16) (Languages.keys Languages.languages) ""
  ∧ Languages.target_lang (Languages.cycle_target_language s)
    = nth ((i + 1) mod 16) (List.map snd Languages.languages) ""
  ∧ Languages.source_lang (Languages.cycle_target_language s) = Languages.source_lang s
  ∧ Languages.source_lang_var (Languages.cycle_target_language s)
    = Languages.source_lang_var s.
Proof.
  intros Hi Hs. unfold Languages.cycle_target_language, Languages.update_target_lang.
  cbn [Languages.target_lang_var Languages.target_lang Languages.source_lang
       Languages.source_lang_var].
  rewrite Hs.
  do 16 (destruct i as [|i]; [by vm_compute|]). lia.
Qed.

(** X15: cycling walks round the table. From the [i]-th language,
    [n] calls of [cycle_target_language] select language [(i + n) mod 16]
    with its code, so sixteen calls come back to the start and every
    language is reached; the source language is never touched. *)
Theorem cycling_walks_the_table (s : Languages.selection) (i n : nat) :
  (i < 16)%nat →
  Languages.target_lang_var s = nth i (Languages.keys Languages.languages) "" →
  Languages.target_lang_var (Languages.cycles n s)
  = nth ((i + n) mod 16) (Languages.keys Languages.languages) ""
  ∧ Languages.target_lang (Languages.cycles n s)
    = (if n is O then Languages.target_lang s
       else nth ((i + n) mod 16) (List.map snd Languages.languages) "")
  ∧ Languages.source_lang (Languages.cycles n s) = Languages.source_lang s
  ∧ Languages.source_lang_var (Languages.cycles n s) = Languages.source_lang_var s.
Proof.
  intros Hi Hs. induction n as [|n IH].
  - cbn [Languages.cycles]. rewrite Nat.add_0_r, Nat.mod_small by done. done.
  - destruct IH as (IH1 & _ & IH3 & IH4). cbn [Languages.cycles].
    destruct (cycle_step ((i + n) mod 16) (Languages.cycles n s)) as (H1 & H2 & H3 & H4);
      [apply Nat.mod_upper_bound; lia | done |].
    replace (((i + n) mod 16 + 1) mod 16)%nat with ((i + S n) mod 16)%nat in H1, H2.
    + repeat split; congruence.
    + replace (i + S n)%nat with ((i + n) + 1)%nat by lia.
      rewrite (Nat.Div0.add_mod (i + n) 1 16).
      by rewrite (Nat.mod_small 1 16) by lia.
Qed.

Lemma cycling_walks_the_table_witness :
  Languages.target_lang_var (Languages.cycles 16 Languages.initial) = "Spanish"
  ∧ Languages.target_lang (Languages.cycles 16 Languages.initial) = "es"
  ∧ Languages.source_lang (Languages.cycles 16 Languages.initial) = "en"
  ∧ Languages.source_lang_var (Languages.cycles 16 Languages.initial) = "English".
Proof.
  apply (cycling_walks_the_table Languages.initial 1 16); [lia | reflexivity].
Defined.

Lemma get_listed d name fallback :
  In name (Languages.keys d) → In (name, Languages.get d name fallback) d.
Proof.
  induction d as [|[k v] d IH]; [done|]. simpl.
  destruct (String.eqb k name) eqn:E.
  - apply String.eqb_eq in E as ->. intros _. by left.
  - intros [->|H]; [by rewrite String.eqb_refl in E|]. right. by apply IH.
Qed.

Lemma cycle_selects_listed s :
  Languages.listed (Languages.target_lang_var (Languages.cycle_target_language s))
    (Languages.target_lang (Languages.cycle_target_language s))
  ∧ Languages.source_lang (Languages.cycle_target_language s) = Languages.source_lang s
  ∧ Languages.source_lang_var (Languages.cycle_target_language s)
    = Languages.source_lang_var s.
Proof.
  unfold Languages.cycle_target_language, Languages.update_target_lang, Languages.listed.
  cbn [Languages.target_lang_var Languages.target_lang Languages.source_lang
       Languages.source_lang_var].
  split; [|done]. apply get_listed.
  destruct (Languages.index _ _) as [idx|].
  - apply nth_In. apply Nat.mod_upper_bound. done.
  - apply nth_In. simpl. lia.
Qed.

Lemma index_not_in l x : ¬ In x l → Languages.index l x = None.
Proof.
  induction l as [|y l IH]; simpl; [done|]. intros H.
  destruct (String.eqb y x) eqn:E.
  - apply String.eqb_eq in E. tauto.
  - rewrite IH by tauto. done.
Qed.

(** X16: the language fields follow the selectors. Starting from a
    state in which each field is the code of the name its selector shows
    (as in a new controller), every run of picks from the two combo
    boxes, of target cycling and of source dialogs, whatever their
    answers, keeps it so. [cycle_target_language] alone restores it for
    the target from any state, selecting English when the name shown is
    not in the table. *)
Theorem language_fields_follow_selectors (s : Languages.selection)
  (ops : list Languages.op) :
  (Languages.consistent s →
   Forall Languages.from_gui ops →
   Languages.consistent (fold_left Languages.step ops s))
  ∧ Languages.listed
      (Languages.target_lang_var (Languages.cycle_target_language s))
      (Languages.target_lang (Languages.cycle_target_language s))
  ∧ (¬ In (Languages.target_lang_var s) (Languages.keys Languages.languages) →
     Languages.target_lang_var (Languages.cycle_target_language s) = "English"
     ∧ Languages.target_lang (Languages.cycle_target_language s) = "en").
Proof.
  split; [|split].
  - revert s. induction ops as [|o ops IH]; intros s Hs Hops; [done|].
    apply Forall_cons in Hops as [Ho Hops]. cbn [fold_left]. apply IH; [|done].
    destruct Hs as [Hsrc Htgt]. destruct o as [name|name| |[name|]];
      cbn [Languages.step Languages.from_gui] in *.
    + split; [|done]. by apply get_listed.
    + split; [done|]. by apply get_listed.
    + destruct (cycle_selects_listed s) as (H1 & H2 & H3).
      split; [|done]. by rewrite H2, H3.
    + unfold Languages.prompt_change_source_language.
      destruct (existsb (String.eqb name) (Languages.keys Languages.languages)) eqn:E;
        [|by rewrite andb_false_r].
      destruct (negb (String.eqb name "")); [|done]. cbn [andb].
      apply existsb_exists in E as (k & Hk & ->%String.eqb_eq).
      split; [|done]. by apply get_listed.
    + done.
  - apply cycle_selects_listed.
  - intros Hn. apply index_not_in in Hn.
    unfold Languages.cycle_target_language, Languages.update_target_lang.
    cbn [Languages.target_lang_var Languages.target_lang]. rewrite Hn. done.
Qed.

Lemma language_fields_follow_selectors_witness :
  Languages.consistent
    (fold_left Languages.step
       [Languages.PickTarget "Hindi"; Languages.Cycle;
        Languages.Prompt (Some "Klingon"); Languages.Prompt (Some "Korean")]
       Languages.initial).
Proof.
  apply (language_fields_follow_selectors Languages.initial
           [Languages.PickTarget "Hindi"; Languages.Cycle;
            Languages.Prompt (Some "Klingon"); Languages.Prompt (Some "Korean")]).
  - split; unfold Languages.listed; simpl; repeat (first [by left | right]).
  - apply Forall_cons. split; [|by repeat constructor].
    simpl. repeat (first [by left | right]).
Defined.

(** ** Text and actions *)

Lemma length_prefix n s : String.length (Text.prefix n s) = Nat.min n (String.length s).
Proof.
  revert s. induction n as [|n IH]; intros [|c s]; simpl; try done. by rewrite IH.
Qed.

Lemma truthy_prefix n s :
  Text.truthy s = true → Text.truthy (Text.prefix (S n) s) = true.
Proof. by destruct s. Qed.

Lemma truthy_length s : Text.truthy s = true ↔ (1 ≤ String.length s)%nat.
Proof. destruct s; simpl; split; (done || lia). Qed.

Lemma truthy_or_else a b : Text.truthy b = true → Text.truthy (Text.or_else a b) = true.
Proof. unfold Text.or_else. by destruct (Text.truthy a) eqn:E. Qed.

Lemma string_length_app s1 s2 :
  String.length (s1 ++ s2) = (String.length s1 + String.length s2)%nat.
Proof. induction s1 as [|c s1 IH]; simpl; [done | by rewrite IH]. Qed.

(** X17: the actions offered are the actions implemented. With a
    dictionary for registry, [execute_gesture_action] returns; for a
    gesture mapped to one of [AVAILABLE_ACTIONS] it asks for exactly one
    effect and never logs an unknown action, except for "none", which
    asks for nothing; for a gesture mapped to any other string it only
    logs the unknown action. *)
Theorem available_actions_are_handled (r : Registry.registry) (l : Registry.loc)
  (esp_msg_entry last_translation gesture a : string) :
  Registry.gesture_actions r = Registry.RefDict l →
  Registry.action_of r gesture = Registry.JStr a →
  ∃ effects,
    Actions.execute_gesture_action r esp_msg_entry last_translation gesture
    = Some effects
    ∧ (a = "none" → effects = [])
    ∧ (In a Registry.AVAILABLE_ACTIONS → a ≠ "none" →
       ∃ e, effects = [e] ∧ ∀ x, e ≠ Actions.LogUnknownAction x)
    ∧ (¬ In a Registry.AVAILABLE_ACTIONS →
       effects = [Actions.LogUnknownAction (Registry.JStr a)]).
Proof.
  intros Hl Ha. unfold Actions.execute_gesture_action.
  rewrite Hl. cbv zeta. rewrite Ha. eexists. split; [reflexivity|].
  split; [|split].
  - by intros ->.
  - intros Hin Hne. simpl in Hin.
    repeat (destruct Hin as [<-|Hin];
            [first [by destruct Hne | simpl; eexists; split; [reflexivity | done]]|]).
    done.
  - intros Hn.
    repeat (match goal with
            | |- context [String.eqb a ?k] =>
                let E := fresh "E" in
                destruct (String.eqb a k) eqn:E;
                [apply String.eqb_eq in E; exfalso; apply Hn; rewrite E; simpl; tauto|]
            end).
    done.
Qed.

Lemma available_actions_are_handled_witness :
  Actions.execute_gesture_action fresh_registry "" "" "thumbs_up"
  = Some [Actions.StartTranslateAndSpeak]
  ∧ (∀ x, Actions.StartTranslateAndSpeak ≠ Actions.LogUnknownAction x).
Proof.
  destruct (available_actions_are_handled fresh_registry (fresh (dom Registry.module_heap))
              "" "" "thumbs_up" "translate" eq_refl eq_refl)
    as (effects & He & _ & H & _).
  destruct H as (e & -> & Hx).
  - simpl. tauto.
  - done.
  - assert (e = Actions.StartTranslateAndSpeak) as -> by (vm_compute in He; congruence).
    split; [exact He | exact Hx].
Defined.

Lemma sent_message_fits s :
  Text.truthy s = true →
  (1 ≤ String.length (Text.prefix 80 s) ≤ 80)%nat.
Proof.
  intros H. split.
  - by apply truthy_length, truthy_prefix.
  - rewrite length_prefix. lia.
Qed.

(** X18: a gesture action never sends an empty or an over-long message.
    Whatever the registry, the message entry and the last translation
    are, every message [execute_gesture_action] passes to the display has
    between 1 and 80 characters. *)
Theorem gesture_messages_fit_the_display (r : Registry.registry)
  (esp_msg_entry last_translation gesture message : string)
  (effects : list Actions.effect) :
  Actions.execute_gesture_action r esp_msg_entry last_translation gesture
  = Some effects →
  In (Actions.SendToDisplay message) effects →
  (1 ≤ String.length message ≤ 80)%nat.
Proof.
  unfold Actions.execute_gesture_action.
  destruct (Registry.gesture_actions r) as [l|v]; [|done].
  cbv zeta. intros Heffects. apply (inj Some) in Heffects. subst effects.
  destruct (Registry.action_of r gesture) as [|b|q|a|items|members];
    try (by intros [[=]|[]]).
  pose proof (sent_message_fits
                (Text.or_else (Text.strip esp_msg_entry)
                   (Text.or_else last_translation " "))
                ltac:(by apply truthy_or_else, truthy_or_else)) as H1.
  pose proof (sent_message_fits (Text.or_else last_translation "No translation")
                ltac:(by apply truthy_or_else)) as H2.
  revert H1 H2.
  generalize (Text.prefix 80 (Text.or_else (Text.strip esp_msg_entry)
                                (Text.or_else last_translation " "))).
  generalize (Text.prefix 80 (Text.or_else last_translation "No translation")).
  intros m2 m1 H1 H2.
  repeat (match goal with
          | |- context [String.eqb a ?k] => destruct (String.eqb a k)
          end; try (by intros [[=]|[]]); try (by intros [])).
  - by intros [[= <-]|[]].
  - by intros [[= <-]|[]].
Qed.

Lemma gesture_messages_fit_the_display_witness :
  Actions.execute_gesture_action fresh_registry "   " "" "pointing"
  = Some [Actions.SendToDisplay " "]
  ∧ (1 ≤ String.length " " ≤ 80)%nat.
Proof.
  assert (Actions.execute_gesture_action fresh_registry "   " "" "pointing"
          = Some [Actions.SendToDisplay " "]) as H by (vm_compute; reflexivity).
  split; [exact H|].
  apply (gesture_messages_fit_the_display fresh_registry "   " "" "pointing" " "
           [Actions.SendToDisplay " "] H).
  by left.
Defined.

Lemma send_carries_message c message network req :
  (DisplayChannel.send_to_esp32_display c message network).2 = Some req →
  Actions.message_of req = message.
Proof.
  unfold DisplayChannel.send_to_esp32_display.
  destruct (negb (DisplayChannel.display_available c)); [done|].
  simpl. destruct (String.eqb _ "HTTP").
  - destruct (network _) as [status|]; [destruct (status =? 200)|];
      by intros [= <-].
  - destruct (network _); by intros [= <-].
Qed.

(** X19: the manual senders cut their messages to the display's size.
    A network call made by [send_custom_message] carries the first 80
    characters of the entry, and the entry is cleared; one made by
    [send_to_i2c_display] carries the first 21 characters of each line
    joined by a bar, at most 43 characters. With an empty entry, or two
    empty lines, neither makes a call nor changes the channel, and the
    warning is shown. *)
Theorem manual_senders_truncate (c : DisplayChannel.channel)
  (esp_msg_entry line1 line2 : string)
  (network : DisplayChannel.request → DisplayChannel.outcome) :
  (∀ req, (Actions.send_custom_message c esp_msg_entry network).1.2 = Some req →
     Actions.message_of req = Text.prefix 80 esp_msg_entry
     ∧ (1 ≤ String.length (Actions.message_of req) ≤ 80)%nat
     ∧ (Actions.send_custom_message c esp_msg_entry network).1.1.2 = "")
  ∧ (∀ req, (Actions.send_to_i2c_display c line1 line2 network).1.2 = Some req →
       Actions.message_of req
       = (Text.prefix 21 line1 ++ "|" ++ Text.prefix 21 line2)%string
       ∧ (2 ≤ String.length (Actions.message_of req) ≤ 43)%nat)
  ∧ Actions.send_custom_message c "" network = (c, "", None, true)
  ∧ Actions.send_to_i2c_display c "" "" network = (c, None, true).
Proof.
  split; [|split; [|split]]; try done.
  - unfold Actions.send_custom_message.
    destruct (Text.truthy esp_msg_entry) eqn:Ht; [|done].
    pose proof (send_carries_message c (Text.prefix 80 esp_msg_entry) network) as H.
    destruct (DisplayChannel.send_to_esp32_display _ _ _) as [c1 o]. cbn [fst snd] in *.
    intros req ->. rewrite (H req eq_refl).
    split; [done|]. split; [by apply sent_message_fits | done].
  - unfold Actions.send_to_i2c_display.
    destruct (negb (Text.truthy (Text.prefix 21 line1))
              && negb (Text.truthy (Text.prefix 21 line2))) eqn:Ht; [done|].
    pose proof (send_carries_message c
                  (Text.prefix 21 line1 ++ "|" ++ Text.prefix 21 line2)%string network) as H.
    destruct (DisplayChannel.send_to_esp32_display _ _ _) as [c1 o]. cbn [fst snd] in *.
    intros req ->. rewrite (H req eq_refl). split; [done|].
    rewrite !string_length_app, !length_prefix.
    apply andb_false_iff in Ht as [Ht|Ht]; apply negb_false_iff, truthy_length in Ht;
      rewrite length_prefix in Ht; change (String.length "|") with 1%nat; lia.
Qed.

Lemma manual_senders_truncate_witness :
  Actions.message_of (DisplayChannel.WsSend "ws://192.168.1.42:81" "hello")
  = Text.prefix 80 "hello"
  ∧ (1 ≤ String.length
           (Actions.message_of (DisplayChannel.WsSend "ws://192.168.1.42:81" "hello"))
     ≤ 80)%nat
  ∧ (Actions.send_custom_message DisplayChannel.initial "hello" (answers 200)).1.1.2
    = "".
Proof.
  apply (proj1 (manual_senders_truncate DisplayChannel.initial "hello" "" ""
                  (answers 200))).
  reflexivity.
Defined.

(** ** Translation *)

Lemma show_keeps s message w :
  Translator.last_translation (Translator.show s message w).1
  = Translator.last_translation s
  ∧ Translator.langs (Translator.show s message w).1 = Translator.langs s
  ∧ Translator.selected_translation_engine (Translator.show s message w).1
    = Translator.selected_translation_engine s
  ∧ (length (Translator.show s message w).2 ≤ 1)%nat
  ∧ (∀ req, In req (Translator.show s message w).2 → Actions.message_of req = message).
Proof.
  unfold Translator.show.
  pose proof (send_carries_message (Translator.channel s) message (Translator.network w)) as H.
  destruct (DisplayChannel.send_to_esp32_display _ _ _) as [c [req|]]; cbn [fst snd] in *.
  - repeat split; try done. intros r [<-|[]]. by apply H.
  - repeat split; try done. simpl. lia.
Qed.

(** The outcomes of [translate_and_speak], case by case. *)
Lemma translate_and_speak_facts (s : Translator.state) (w : Translator.services) :
  let r := Translator.translate_and_speak s w in
  Translator.langs (Translator.after r) = Translator.langs s
  ∧ Translator.selected_translation_engine (Translator.after r)
    = Translator.selected_translation_engine s
  ∧ (length (Translator.calls r) ≤ 2)%nat
  ∧ ((∃ t, Translator.spoken r
           = Some (t, Languages.get Languages.languages
                        (Languages.target_lang_var (Translator.langs s)) "es")
           ∧ Translator.last_translation (Translator.after r) = t
           ∧ Translator.shown r = ["Listening..."; Text.prefix 80 t])
     ∨ (Translator.spoken r = None
        ∧ Translator.last_translation (Translator.after r)
          = Translator.last_translation s
        ∧ ∃ status, Translator.shown r = ["Listening..."; status]
                    ∧ In status ["Timeout"; "Not understood"; "Error"])).
Proof.
  intros r. subst r. unfold Translator.translate_and_speak.
  destruct (show_keeps s "Listening..." w) as (K1 & K2 & K3 & K4 & _).
  destruct (Translator.show s "Listening..." w) as [s0 calls0]. cbn [fst snd] in *.
  rewrite K2, K3.
  destruct (match Translator.listen w with
            | Translator.Done _ => _
            | Translator.Failed e => Translator.Failed e
            end) as [t|e].
  - set (s1 := {| Translator.channel := Translator.channel s0;
                  Translator.last_translation := t;
                  Translator.langs := Translator.langs s;
                  Translator.selected_translation_engine :=
                    Translator.selected_translation_engine s |}).
    destruct (show_keeps s1 (Text.prefix 80 t) w) as (L1 & L2 & L3 & L4 & _).
    destruct (Translator.show s1 _ w) as [s2 calls1]. cbn [fst snd] in *.
    cbn [Translator.after Translator.calls Translator.spoken Translator.shown].
    rewrite length_app. repeat split; try done; [lia|]. left. by exists t.
  - set (status := match e with
                   | Translator.WaitTimeoutError => "Timeout"
                   | Translator.UnknownValueError => "Not understood"
                   | Translator.OtherError => "Error"
                   end).
    destruct (show_keeps s0 status w) as (L1 & L2 & L3 & L4 & _).
    destruct (Translator.show s0 status w) as [s2 calls1]. cbn [fst snd] in *.
    cbn [Translator.after Translator.calls Translator.spoken Translator.shown].
    rewrite length_app. repeat split; try congruence; [lia|]. right.
    split; [done|]. split; [congruence|]. exists status. split; [done|].
    subst status. destruct e; simpl; tauto.
Qed.


Lemma show_unavailable s message w :
  DisplayChannel.display_available (Translator.channel s) = false →
  (Translator.show s message w).2 = []
  ∧ DisplayChannel.display_available
      (Translator.channel (Translator.show s message w).1) = false.
Proof.
  intros H. unfold Translator.show. by rewrite send_unavailable.
Qed.

Lemma show_raising s message w :
  DisplayChannel.display_available (Translator.channel s) = true →
  (∀ req, Translator.network w req = DisplayChannel.Raised) →
  (∃ req, (Translator.show s message w).2 = [req]
          ∧ Actions.message_of req = message)
  ∧ DisplayChannel.display_available
      (Translator.channel (Translator.show s message w).1) = false.
Proof.
  intros Hav Hnet. unfold Translator.show.
  destruct (send_available (Translator.channel s) message (Translator.network w) Hav)
    as (req & Hreq & Hflag).
  pose proof (send_carries_message _ _ _ _ Hreq) as Hm.
  rewrite Hnet in Hflag.
  destruct (DisplayChannel.send_to_esp32_display _ _ _) as [c o]. cbn [fst snd] in *.
  subst o. split; [by exists req | done].
Qed.

(** X21: a dead display costs [translate_and_speak] one network call,
    not two. On an available channel whose network raises, only the
    "Listening..." message reaches the network and the channel ends
    unavailable; on an unavailable channel the call reaches the network
    not at all. The listening, the translation and the speaking go on as
    they would otherwise. *)
Theorem translate_and_speak_on_dead_display (s : Translator.state)
  (w : Translator.services) :
  (DisplayChannel.display_available (Translator.channel s) = true →
   (∀ req, Translator.network w req = DisplayChannel.Raised) →
   (∃ req, Translator.calls (Translator.translate_and_speak s w) = [req]
           ∧ Actions.message_of req = "Listening...")
   ∧ DisplayChannel.display_available
       (Translator.channel (Translator.after (Translator.translate_and_speak s w)))
     = false)
  ∧ (DisplayChannel.display_available (Translator.channel s) = false →
     Translator.calls (Translator.translate_and_speak s w) = []
     ∧ DisplayChannel.display_available
         (Translator.channel (Translator.after (Translator.translate_and_speak s w)))
       = false).
Proof.
  split.
  - intros Hav Hnet. unfold Translator.translate_and_speak.
    destruct (show_raising s "Listening..." w Hav Hnet) as ((req & Hreq & Hm) & Hoff).
    destruct (Translator.show s "Listening..." w) as [s0 calls0]. cbn [fst snd] in *.
    subst calls0.
    destruct (match Translator.listen w with
              | Translator.Done _ => _
              | Translator.Failed e => Translator.Failed e
              end) as [t|e].
    + match goal with
      | |- context [Translator.show ?s1 ?m w] =>
          destruct (show_unavailable s1 m w Hoff) as [H1 H2];
          destruct (Translator.show s1 m w) as [s2 calls1]
      end.
      cbn [fst snd Translator.after Translator.calls] in *. subst calls1.
      split; [by exists req | done].
    + match goal with
      | |- context [Translator.show ?s1 ?m w] =>
          destruct (show_unavailable s1 m w Hoff) as [H1 H2];
          destruct (Translator.show s1 m w) as [s2 calls1]
      end.
      cbn [fst snd Translator.after Translator.calls] in *. subst calls1.
      split; [by exists req | done].
  - intros Hoff0. unfold Translator.translate_and_speak.
    destruct (show_unavailable s "Listening..." w Hoff0) as [H0 Hoff].
    destruct (Translator.show s "Listening..." w) as [s0 calls0]. cbn [fst snd] in *.
    subst calls0.
    destruct (match Translator.listen w with
              | Translator.Done _ => _
              | Translator.Failed e => Translator.Failed e
              end) as [t|e].
    + match goal with
      | |- context [Translator.show ?s1 ?m w] =>
          destruct (show_unavailable s1 m w Hoff) as [H1 H2];
          destruct (Translator.show s1 m w) as [s2 calls1]
      end.
      cbn [fst snd Translator.after Translator.calls] in *. by subst calls1.
    + match goal with
      | |- context [Translator.show ?s1 ?m w] =>
          destruct (show_unavailable s1 m w Hoff) as [H1 H2];
          destruct (Translator.show s1 m w) as [s2 calls1]
      end.
      cbn [fst snd Translator.after Translator.calls] in *. by subst calls1.
Qed.

Lemma translate_and_speak_on_dead_display_witness :
  (∃ req, Translator.calls
            (Translator.translate_and_speak Translator.initial hello_no_display)
          = [req]
          ∧ Actions.message_of req = "Listening...")
  ∧ DisplayChannel.display_available
      (Translator.channel
         (Translator.after
            (Translator.translate_and_speak Translator.initial hello_no_display)))
    = false.
Proof.
  apply (translate_and_speak_on_dead_display Translator.initial hello_no_display);
    reflexivity.
Defined.



(** X23: the engine selector only matters for "googletrans". Every
    other engine name, "GoogleCloud" included, gives what deep
    translator's [GoogleTranslator] gives; "googletrans" gives its own
    result when it succeeds and falls back to [GoogleTranslator]
    otherwise. So, whatever the engine, a failed [translate_text] is a
    failure of [GoogleTranslator]. *)
Theorem translate_text_engines (engine text src tgt : string)
  (w : Translator.services) :
  (engine ≠ "googletrans" →
   Translator.translate_text engine text src tgt w
   = Translator.google_translator w text src tgt)
  ∧ (∀ t, Translator.googletrans w text src tgt = Translator.Done t →
          Translator.translate_text "googletrans" text src tgt w = Translator.Done t)
  ∧ (∀ e, Translator.translate_text engine text src tgt w = Translator.Failed e →
          Translator.google_translator w text src tgt = Translator.Failed e).
Proof.
  unfold Translator.translate_text. split; [|split].
  - intros Hne. destruct (String.eqb engine "GoogleTranslator"); [done|].
    destruct (String.eqb engine "googletrans") eqn:E;
      [by apply String.eqb_eq in E|].
    by destruct (String.eqb engine "GoogleCloud").
  - intros t Ht. simpl. by rewrite Ht.
  - intros e. destruct (String.eqb engine "GoogleTranslator"); [done|].
    destruct (String.eqb engine "googletrans").
    + by destruct (Translator.googletrans w text src tgt).
    + by destruct (String.eqb engine "GoogleCloud").
Qed.

Lemma translate_text_engines_witness :
  Translator.translate_text "GoogleCloud" "hello" "en" "es" hello_no_display
  = Translator.google_translator hello_no_display "hello" "en" "es".
Proof.
  apply (proj1 (translate_text_engines "GoogleCloud" "hello" "en" "es"
                  hello_no_display)).
  discriminate.
Defined.
